(** * gossip: SIP headers and URIs (headers.go)

    A shallow embedding of the header and URI values of [headers.go], of
    their [String()] renderings and of URI equality, followed by the
    properties of the rendering and equality functions.

    Conventions of the embedding:
    - a Go [string] is a [string] of bytes;
    - a nilable pointer [*string] or [*uint16] is an [option];
    - [map[string]*string] is a [gmap string (option string)]; a nil map and
      an empty map behave alike under [len], [range] and lookup, and both are
      the empty [gmap];
    - [range] over a map yields its entries in an order the language leaves
      unspecified and that may change from one loop to the next: a function
      that ranges over a map is a computation in the monad [ND] of all
      possible results, one per iteration order;
    - method receivers and the URI values held by interfaces are non-nil
      pointers to their structs. *)

From Stdlib Require Import String Ascii NArith ZArith Bool Lia.
From stdpp Require Import base option list list_monad gmap fin_maps strings pretty.

(** ** Strings and formatting verbs *)

(** The byte 0x22. *)
Definition dquote : string := String "034"%char EmptyString.

(** [bytes.Buffer.WriteString]: the buffer is the string written so far. *)
Definition WriteString (buffer s : string) : string := buffer +:+ s.

(** [fmt.Sprintf("%c", c)] for [c : uint8]: the verb prints the Unicode code
    point [c] in UTF-8, one byte below 0x80 and two bytes from 0x80 on. *)
Definition fmt_c (c : ascii) : string :=
  let n := N_of_ascii c in
  if (n <? 128)%N then String c EmptyString
  else String (ascii_of_N (192 + N.shiftr n 6))
         (String (ascii_of_N (128 + N.land n 63)) EmptyString).

(** [strconv.Itoa(int(n))] and the verb [%d] for an unsigned value. *)
Definition fmt_d (n : N) : string := pretty n.

(** [strings.IndexByte(s, c) >= 0] *)
Fixpoint ContainsByte (s : string) (c : ascii) : bool :=
  match s with
  | EmptyString => false
  | String x s' => if Ascii.eqb x c then true else ContainsByte s' c
  end.

(** [strings.ContainsAny(s, chars)] for a set [chars] of ASCII characters. *)
Fixpoint ContainsAny (s chars : string) : bool :=
  match s with
  | EmptyString => false
  | String x s' => if ContainsByte chars x then true else ContainsAny s' chars
  end.

(** [strings.Join(elems, sep)] *)
Fixpoint Join (elems : list string) (sep : string) : string :=
  match elems with
  | [] => EmptyString
  | [x] => x
  | x :: rest => x +:+ sep +:+ Join rest sep
  end.

(** Modelled from the spec: the constant [ABNF_WS] is declared outside
    [headers.go]; the whitespace set is space, tab, CR, LF. *)
Definition ABNF_WS : string :=
  String " "%char (String "009"%char (String "013"%char (String "010"%char EmptyString))).

(** ** Pointers *)

Abbreviation uint16 := N.

(** Modelled from the spec: [strPtrEq] is defined outside [headers.go];
    absence must match absence, else the strings are equal. *)
Definition strPtrEq (a b : option string) : bool :=
  match a, b with
  | None, None => true
  | Some x, Some y => String.eqb x y
  | _, _ => false
  end.

(** Modelled from the spec: [uint16PtrEq] is defined outside [headers.go];
    absence must match absence, else the numbers are equal. *)
Definition uint16PtrEq (a b : option uint16) : bool :=
  match a, b with
  | None, None => true
  | Some x, Some y => (x =? y)%N
  | _, _ => false
  end.

(** ** Maps and their iteration *)

Abbreviation Params := (gmap string (option string)).
Abbreviation Entry := (string * option string)%type.

(** The possible results of a computation that ranges over maps. *)
Definition ND (A : Type) : Type := list A.

(** [for key, value := range params]: any order of the entries. *)
Definition range (params : Params) : ND (list Entry) :=
  permutations (map_to_list params).

(** ** Parameter collections *)

(** One round of the loop of [ParamsToString], on the buffer and the flag
    [first]. *)
Definition ParamsToString_step (start sep : ascii) (st : string * bool)
    (kv : Entry) : string * bool :=
  let '(buffer, first) := st in
  let '(key, value) := kv in
  let buffer :=
    if first then WriteString buffer (fmt_c start)
    else WriteString buffer (fmt_c sep) in
  let buffer :=
    match value with
    | None => WriteString buffer key
    | Some v =>
        if ContainsAny v ABNF_WS
        then WriteString buffer (key +:+ "=" +:+ dquote +:+ v +:+ dquote)
        else WriteString buffer (key +:+ "=" +:+ v)
    end in
  (buffer, false).

(** The loop of [ParamsToString] run on the entries in the order [ord]. *)
Definition ParamsToString_loop (ord : list Entry) (start sep : ascii) : string :=
  (foldl (ParamsToString_step start sep) (EmptyString, true) ord).1.

Definition ParamsToString (params : Params) (start sep : ascii) : ND string :=
  ord ← range params; mret (ParamsToString_loop ord start sep).

(** The loop of [paramsEqual] run on the entries of [a] in the order [ord]. *)
Fixpoint paramsEqual_loop (ord : list Entry) (b : Params) : bool :=
  match ord with
  | [] => true
  | (key, a_val) :: rest =>
      match b !! key with
      | None => false
      | Some b_val =>
          if negb (strPtrEq a_val b_val) then false
          else paramsEqual_loop rest b
      end
  end.

Definition paramsEqual (a b : Params) : ND bool :=
  if negb (size a =? size b) then mret false
  else ord ← range a; mret (paramsEqual_loop ord b).

(** ** URIs *)

Record SipUri := {
  IsEncrypted : bool;
  User : option string;
  Password : option string;
  Host : string;
  Port : option uint16;
  UriParams : Params;
  Headers : Params
}.

Inductive WildcardUri := mkWildcardUri.

(** The interfaces [Uri] and [ContactUri]: both are implemented by
    [*SipUri] and [*WildcardUri], and by nothing else in the package. *)
Inductive Uri :=
  | USip (uri : SipUri)
  | UWildcard (uri : WildcardUri).

Abbreviation ContactUri := Uri.

Definition SipUri_IsWildcard (uri : SipUri) : bool := false.

Definition SipUri_Equals (uri : SipUri) (otherUri : Uri) : ND bool :=
  match otherUri with
  | UWildcard _ => mret false
  | USip other =>
      let result :=
        Bool.eqb (IsEncrypted uri) (IsEncrypted other) &&
        strPtrEq (User uri) (User other) &&
        strPtrEq (Password uri) (Password other) &&
        String.eqb (Host uri) (Host other) &&
        uint16PtrEq (Port uri) (Port other) in
      if negb result then mret false
      else
        uriParamsEq ← paramsEqual (UriParams uri) (UriParams other);
        if negb uriParamsEq then mret false
        else
          headersEq ← paramsEqual (Headers uri) (Headers other);
          if negb headersEq then mret false
          else mret true
  end.

Definition SipUri_String (uri : SipUri) : ND string :=
  let buffer := EmptyString in
  let buffer :=
    if IsEncrypted uri
    then WriteString (WriteString buffer "sips") ":"
    else WriteString (WriteString buffer "sip") ":" in
  let buffer :=
    match User uri with
    | Some user =>
        let buffer := WriteString buffer user in
        let buffer :=
          match Password uri with
          | Some password => WriteString (WriteString buffer ":") password
          | None => buffer
          end in
        WriteString buffer "@"
    | None => buffer
    end in
  let buffer := WriteString buffer (Host uri) in
  let buffer :=
    match Port uri with
    | Some port => WriteString (WriteString buffer ":") (fmt_d port)
    | None => buffer
    end in
  uriParams ← ParamsToString (UriParams uri) ";" ";";
  let buffer := WriteString buffer uriParams in
  headers ← ParamsToString (Headers uri) "?" "&";
  let buffer := WriteString buffer headers in
  mret buffer.

Definition WildcardUri_IsWildcard (uri : WildcardUri) : bool := true.

Definition WildcardUri_String (uri : WildcardUri) : string := "*".

Definition WildcardUri_Equals (uri : WildcardUri) (other : Uri) : bool :=
  match other with
  | UWildcard _ => true
  | _ => false
  end.

(** Method calls through the interfaces. *)
Definition Uri_Equals (uri other : Uri) : ND bool :=
  match uri with
  | USip u => SipUri_Equals u other
  | UWildcard w => mret (WildcardUri_Equals w other)
  end.

Definition Uri_String (uri : Uri) : ND string :=
  match uri with
  | USip u => SipUri_String u
  | UWildcard w => mret (WildcardUri_String w)
  end.

Definition Uri_IsWildcard (uri : ContactUri) : bool :=
  match uri with
  | USip u => SipUri_IsWildcard u
  | UWildcard w => WildcardUri_IsWildcard w
  end.

(** ** Headers *)

Record ContactHeader := {
  contact_displayName : option string;
  contact_uri : ContactUri;
  contact_params : Params
}.

Definition ContactHeader_String (contact : ContactHeader) : ND string :=
  let buffer := EmptyString in
  let buffer := WriteString buffer "Contact: " in
  let buffer :=
    match contact_displayName contact with
    | Some name => WriteString buffer (dquote +:+ name +:+ dquote +:+ " ")
    | None => buffer
    end in
  uri ←
    match contact_uri contact with
    | UWildcard _ => mret "*"%string
    | other => s ← Uri_String other; mret ("<" +:+ s +:+ ">")
    end;
  let buffer := WriteString buffer uri in
  params ← ParamsToString (contact_params contact) ";" ";";
  let buffer := WriteString buffer params in
  mret buffer.

Definition CallId := string.

Definition CallId_String (callId : CallId) : string := "Call-Id: " +:+ callId.

Record ViaHop := {
  protocolName : string;
  protocolVersion : string;
  transport : string;
  host : string;
  port : option uint16;
  params : Params
}.

Definition ViaHeader := list ViaHop.

Definition ViaHop_String (entry : ViaHop) : ND string :=
  let buffer := EmptyString in
  let buffer :=
    WriteString buffer
      (protocolName entry +:+ "/" +:+ protocolVersion entry +:+ "/" +:+
       transport entry +:+ " " +:+ host entry) in
  let buffer :=
    match port entry with
    | Some p => WriteString buffer (":" +:+ fmt_d p)
    | None => buffer
    end in
  ps ← ParamsToString (params entry) ";" ";";
  let buffer := WriteString buffer ps in
  mret buffer.

(** The loop of [ViaHeader.String]: [len] is [len(via)], [idx] the index of
    the first hop of [rest]. *)
Fixpoint ViaHeader_loop (len idx : Z) (rest : list ViaHop) (buffer : string) : ND string :=
  match rest with
  | [] => mret buffer
  | entry :: rest' =>
      s ← ViaHop_String entry;
      let buffer := WriteString buffer s in
      let buffer :=
        if negb (idx =? len - 1)%Z then WriteString buffer ", " else buffer in
      ViaHeader_loop len (idx + 1)%Z rest' buffer
  end.

Definition ViaHeader_String (via : ViaHeader) : ND string :=
  let buffer := EmptyString in
  let buffer := WriteString buffer "Via: " in
  ViaHeader_loop (Z.of_nat (length via)) 0 via buffer.

(** ** The other headers *)

Record GenericHeader := {
  headerName : string;
  contents : string
}.

Definition GenericHeader_String (header : GenericHeader) : string :=
  (headerName header +:+ ": ") +:+ contents header.

Record ToHeader := {
  to_displayName : option string;
  to_uri : Uri;
  to_params : Params
}.

(** The verb [%s] applied to the interface value [to.uri] calls its
    [String()] method. *)
Definition ToHeader_String (to : ToHeader) : ND string :=
  let buffer := EmptyString in
  let buffer := WriteString buffer "To: " in
  let buffer :=
    match to_displayName to with
    | Some name => WriteString buffer (dquote +:+ name +:+ dquote +:+ " ")
    | None => buffer
    end in
  uri ← Uri_String (to_uri to);
  let buffer := WriteString buffer ("<" +:+ uri +:+ ">") in
  params ← ParamsToString (to_params to) ";" ";";
  let buffer := WriteString buffer params in
  mret buffer.

Record FromHeader := {
  from_displayName : option string;
  from_uri : Uri;
  from_params : Params
}.

Definition FromHeader_String (from : FromHeader) : ND string :=
  let buffer := EmptyString in
  let buffer := WriteString buffer "From: " in
  let buffer :=
    match from_displayName from with
    | Some name => WriteString buffer (dquote +:+ name +:+ dquote +:+ " ")
    | None => buffer
    end in
  uri ← Uri_String (from_uri from);
  let buffer := WriteString buffer ("<" +:+ uri +:+ ">") in
  params ← ParamsToString (from_params from) ";" ";";
  let buffer := WriteString buffer params in
  mret buffer.

Abbreviation uint32 := N.

(** Modelled from the spec: the type [Method] is declared outside
    [headers.go]; a method token, a string that [%s] prints as it is. *)
Definition Method := string.

Record CSeq := {
  SeqNo : uint32;
  MethodName : Method
}.

Definition CSeq_String (cseq : CSeq) : string :=
  "CSeq: " +:+ fmt_d (SeqNo cseq) +:+ " " +:+ MethodName cseq.

(** The conversion [int(x)] of a [uint32]: the language fixes the size of
    [int] at 32 or 64 bits, by the implementation; the conversion keeps the
    low [intSize] bits of [x] and reads them in two's complement. *)
Definition int_of_uint32 (intSize : Z) (x : uint32) : Z :=
  let low := (Z.of_N x mod 2 ^ intSize)%Z in
  if (low <? 2 ^ (intSize - 1))%Z then low else (low - 2 ^ intSize)%Z.

(** The verb [%d] for a signed value. *)
Definition fmt_d_int (z : Z) : string := pretty z.

Definition MaxForwards := uint32.

Definition MaxForwards_String (intSize : Z) (maxForwards : MaxForwards) : string :=
  "Max-Forwards: " +:+ fmt_d_int (int_of_uint32 intSize maxForwards).

Definition ContentLength := uint32.

Definition ContentLength_String (intSize : Z) (contentLength : ContentLength) : string :=
  "Content-Length: " +:+ fmt_d_int (int_of_uint32 intSize contentLength).

Record RequireHeader := { require_options : list string }.

Definition RequireHeader_String (header : RequireHeader) : string :=
  "Require: " +:+ Join (require_options header) ", ".

Record SupportedHeader := { supported_options : list string }.

Definition SupportedHeader_String (header : SupportedHeader) : string :=
  "Supported: " +:+ Join (supported_options header) ", ".

Record ProxyRequireHeader := { proxyRequire_options : list string }.

Definition ProxyRequireHeader_String (header : ProxyRequireHeader) : string :=
  "Proxy-Require: " +:+ Join (proxyRequire_options header) ", ".

Record UnsupportedHeader := { unsupported_options : list string }.

Definition UnsupportedHeader_String (header : UnsupportedHeader) : string :=
  "Unsupported: " +:+ Join (unsupported_options header) ", ".

(** * Vocabulary of the properties *)

(** ** Decidable equality of URI values *)

Global Instance SipUri_eq_dec : EqDecision SipUri.
Proof. solve_decision. Defined.

Global Instance WildcardUri_eq_dec : EqDecision WildcardUri.
Proof. solve_decision. Defined.

Global Instance Uri_eq_dec : EqDecision Uri.
Proof. solve_decision. Defined.

(** ** Equal collections and equal URIs *)

(** Same key set and, for every key, the same value-or-absence. *)
Definition same_params (a b : Params) : Prop :=
  dom a = dom b ∧
  ∀ key va vb, a !! key = Some va → b !! key = Some vb → va = vb.

(** Absence matches absence; two present values must be equal. *)
Definition same_optional {A : Type} (x y : option A) : Prop :=
  match x, y with
  | None, None => True
  | Some u, Some v => u = v
  | _, _ => False
  end.

(** The seven conditions under which two SIP URIs are equal. *)
Definition same_SipUri (a b : SipUri) : Prop :=
  IsEncrypted a = IsEncrypted b ∧
  same_optional (User a) (User b) ∧
  same_optional (Password a) (Password b) ∧
  Host a = Host b ∧
  same_optional (Port a) (Port b) ∧
  same_params (UriParams a) (UriParams b) ∧
  same_params (Headers a) (Headers b).

(** ** The shape of renderings *)

(** The character [c] occurs in [s]. *)
Fixpoint occurs (c : ascii) (s : string) : Prop :=
  match s with
  | EmptyString => False
  | String x s' => x = c ∨ occurs c s'
  end.

(** The value contains a space, a tab, a carriage return or a line feed. *)
Definition has_whitespace (v : string) : Prop :=
  ∃ c, occurs c v ∧
       (c = " "%char ∨ c = "009"%char ∨ c = "013"%char ∨ c = "010"%char).

(** The three forms of an entry: [key], [key=value] and the quoted
    [key="value"]. *)
Inductive entry_form : Entry → string → Prop :=
  | form_absent key :
      entry_form (key, None) key
  | form_plain key v :
      ¬ has_whitespace v →
      entry_form (key, Some v) (key +:+ "=" +:+ v)
  | form_quoted key v :
      has_whitespace v →
      entry_form (key, Some v) (key +:+ "=" +:+ dquote +:+ v +:+ dquote).

(** What one round of the loop appends after the start or separator. *)
Definition render_entry (kv : Entry) : string :=
  match kv with
  | (key, None) => key
  | (key, Some v) =>
      if ContainsAny v ABNF_WS then key +:+ "=" +:+ dquote +:+ v +:+ dquote
      else key +:+ "=" +:+ v
  end.

(** The start character, then the entries with the separator between them. *)
Definition render_entries (start sep : ascii) (es : list string) : string :=
  match es with
  | [] => EmptyString
  | _ => fmt_c start +:+ Join es (fmt_c sep)
  end.

(** The part of [SipUri.String()] written before the parameters. *)
Definition SipUri_prefix (uri : SipUri) : string :=
  (if IsEncrypted uri then "sips" else "sip") +:+ ":" +:+
  match User uri with
  | Some user =>
      user +:+
      match Password uri with
      | Some password => ":" +:+ password
      | None => EmptyString
      end +:+ "@"
  | None => EmptyString
  end +:+
  Host uri +:+
  match Port uri with
  | Some port => ":" +:+ fmt_d port
  | None => EmptyString
  end.

(** The part of [ViaHop.String()] written before the parameters. *)
Definition ViaHop_prefix (entry : ViaHop) : string :=
  protocolName entry +:+ "/" +:+ protocolVersion entry +:+ "/" +:+
  transport entry +:+ " " +:+ host entry +:+
  match port entry with
  | Some p => ":" +:+ fmt_d p
  | None => EmptyString
  end.

(** [hs] lists one rendering for each hop of [via], in the order of [via]. *)
Definition hop_renderings (via : list ViaHop) (hs : list string) : Prop :=
  Forall2 (λ entry h, h ∈ ViaHop_String entry) via hs.

(** ASCII case folding, under which header names are compared. *)
Definition to_lower_byte (c : ascii) : ascii :=
  let n := N_of_ascii c in
  if ((65 <=? n) && (n <=? 90))%N then ascii_of_N (n + 32) else c.

Fixpoint to_lower (s : string) : string :=
  match s with
  | EmptyString => EmptyString
  | String c s' => String (to_lower_byte c) (to_lower s')
  end.

(** ** Reading a rendering back *)

(** The first piece of [s] before the character [c], and the pieces after
    it. *)
Fixpoint Split_pieces (s : string) (c : ascii) : string * list string :=
  match s with
  | EmptyString => (EmptyString, [])
  | String x s' =>
      let '(piece, pieces) := Split_pieces s' c in
      if Ascii.eqb x c then (EmptyString, piece :: pieces)
      else (String x piece, pieces)
  end.

(** Splitting on a character, as [strings.Split] does with a separator of
    one byte: the empty string splits into one empty piece. *)
Definition Split (s : string) (c : ascii) : list string :=
  let '(piece, pieces) := Split_pieces s c in piece :: pieces.

(** Splitting an entry at its first [c]: the key, and the value if [c]
    occurs. *)
Fixpoint Cut (s : string) (c : ascii) : string * option string :=
  match s with
  | EmptyString => (EmptyString, None)
  | String x s' =>
      if Ascii.eqb x c then (EmptyString, Some s')
      else let '(key, value) := Cut s' c in (String x key, value)
  end.

(** The collection read back from a rendering: nothing from the empty
    string; otherwise the start character is dropped, the rest is split on the
    separator, and each piece is split at its first [=]. *)
Definition resplit (sep : ascii) (s : string) : Params :=
  match s with
  | EmptyString => ∅
  | String _ body => list_to_map (map (λ e, Cut e "=") (Split body sep))
  end.

(** The entries that survive a rendering and a split on [sep]: the key holds
    neither [sep] nor [=], and a present value holds neither [sep] nor
    whitespace. *)
Definition splittable (sep : ascii) (kv : Entry) : Prop :=
  ¬ occurs sep kv.1 ∧ ¬ occurs "=" kv.1 ∧
  ∀ v, kv.2 = Some v → ¬ occurs sep v ∧ ¬ has_whitespace v.

(** ** Example values *)

(** The URIs [sip:a@b.com] and [sip:a@b.com:5060]. *)
Definition sip_a_b : SipUri :=
  {| IsEncrypted := false; User := Some "a"%string; Password := None;
     Host := "b.com"; Port := None; UriParams := ∅; Headers := ∅ |}.

Definition sip_a_b_5060 : SipUri :=
  {| IsEncrypted := false; User := Some "a"%string; Password := None;
     Host := "b.com"; Port := Some 5060%N; UriParams := ∅; Headers := ∅ |}.

(** The URI [sip:a@B.com], whose host differs from [sip:a@b.com] in case only. *)
Definition sip_a_B : SipUri :=
  {| IsEncrypted := false; User := Some "a"%string; Password := None;
     Host := "B.com"; Port := None; UriParams := ∅; Headers := ∅ |}.

(** The URI [sips:alice:secret@atlanta.com:5061;transport=tcp?subject=hi]. *)
Definition sips_alice : SipUri :=
  {| IsEncrypted := true; User := Some "alice"%string;
     Password := Some "secret"%string; Host := "atlanta.com";
     Port := Some 5061%N;
     UriParams := {[ "transport"%string := Some "tcp"%string ]};
     Headers := {[ "subject"%string := Some "hi"%string ]} |}.

(** The URI [sip:alice@atlanta.com]. *)
Definition sip_alice : SipUri :=
  {| IsEncrypted := false; User := Some "alice"%string; Password := None;
     Host := "atlanta.com"; Port := None; UriParams := ∅; Headers := ∅ |}.

(** The hops [SIP/2.0/UDP bigbox.example.com] and
    [SIP/2.0/UDP pc33.example.com:5060]. *)
Definition hop_bigbox : ViaHop :=
  {| protocolName := "SIP"; protocolVersion := "2.0"; transport := "UDP";
     host := "bigbox.example.com"; port := None; params := ∅ |}.

Definition hop_pc33 : ViaHop :=
  {| protocolName := "SIP"; protocolVersion := "2.0"; transport := "UDP";
     host := "pc33.example.com"; port := Some 5060%N; params := ∅ |}.

(** ** Vocabulary of the further properties *)

(** The display name as the address headers write it: in double quotes and
    followed by a space, or nothing. *)
Definition quoted_name (displayName : option string) : string :=
  match displayName with
  | Some name => dquote +:+ name +:+ dquote +:+ " "
  | None => EmptyString
  end.

(** The option tags read back from the body of a token-list header: the
    body is split on commas and the space after each comma is dropped. *)
Definition untokens (body : string) : list string :=
  match Split body "," with
  | [] => []
  | first :: rest =>
      first :: map (λ piece, match piece with
                             | String _ tag => tag
                             | EmptyString => EmptyString
                             end) rest
  end.

(** * Properties *)

(** ** Pointers and iteration orders *)

Lemma strPtrEq_true (a b : option string) : strPtrEq a b = true ↔ a = b.
Proof.
  destruct a as [x|], b as [y|]; simpl; try (split; congruence).
  rewrite String.eqb_eq. split; congruence.
Qed.

Lemma strPtrEq_refl (a : option string) : strPtrEq a a = true.
Proof. by apply strPtrEq_true. Qed.

Lemma uint16PtrEq_true (a b : option uint16) : uint16PtrEq a b = true ↔ a = b.
Proof.
  destruct a as [x|], b as [y|]; simpl; try (split; congruence).
  rewrite N.eqb_eq. split; congruence.
Qed.

Lemma range_spec (params : Params) (ord : list Entry) :
  ord ∈ range params ↔ ord ≡ₚ map_to_list params.
Proof. unfold range. rewrite permutations_Permutation. split; by symmetry. Qed.

Lemma range_inhabited (params : Params) : map_to_list params ∈ range params.
Proof. by apply range_spec. Qed.

Lemma range_elem_of (params : Params) (ord : list Entry) key value :
  ord ∈ range params → (key, value) ∈ ord ↔ params !! key = Some value.
Proof.
  intros Hord%range_spec. rewrite Hord. apply elem_of_map_to_list.
Qed.

(** ** Equality of parameter collections *)

Lemma same_params_eq (a b : Params) : same_params a b ↔ a = b.
Proof.
  split; [|intros ->; split; [done|congruence]].
  intros [Hdom Hval]. apply map_eq. intros key.
  destruct (a !! key) as [va|] eqn:Ha, (b !! key) as [vb|] eqn:Hb.
  - f_equal. by eapply Hval.
  - apply (elem_of_dom_2 (D := gset string)) in Ha.
    rewrite Hdom in Ha. apply elem_of_dom in Ha as [? ?]. congruence.
  - apply (elem_of_dom_2 (D := gset string)) in Hb.
    rewrite <- Hdom in Hb. apply elem_of_dom in Hb as [? ?]. congruence.
  - done.
Qed.

(** The loop answers [true] exactly when every entry it visits is in [b]. *)
Lemma paramsEqual_loop_true (ord : list Entry) (b : Params) :
  paramsEqual_loop ord b = true ↔
  ∀ key value, (key, value) ∈ ord → b !! key = Some value.
Proof.
  induction ord as [|[key a_val] rest IH]; simpl.
  - split; [intros _ ? ? Hin; by apply elem_of_nil in Hin | done].
  - destruct (b !! key) as [b_val|] eqn:Hb.
    + destruct (strPtrEq a_val b_val) eqn:Heq; simpl.
      * apply strPtrEq_true in Heq as ->. rewrite IH. split.
        -- intros Hrest k v [[= -> ->]|Hin]%elem_of_cons; auto.
        -- intros Hall k v Hin. apply Hall. by right.
      * split; [done|]. intros Hall.
        specialize (Hall key a_val (list_elem_of_here _ _)).
        rewrite Hb in Hall. injection Hall as ->.
        by rewrite strPtrEq_refl in Heq.
    + split; [done|]. intros Hall.
      specialize (Hall key a_val (list_elem_of_here _ _)). congruence.
Qed.

Lemma paramsEqual_loop_subseteq (a b : Params) (ord : list Entry) :
  ord ∈ range a → paramsEqual_loop ord b = true ↔ a ⊆ b.
Proof.
  intros Hord. rewrite paramsEqual_loop_true, map_subseteq_spec.
  split; intros H key value Hin; apply H; by eapply range_elem_of.
Qed.

Lemma paramsEqual_loop_eq (a b : Params) (ord : list Entry) :
  ord ∈ range a → size a = size b →
  paramsEqual_loop ord b = true ↔ a = b.
Proof.
  intros Hord Hsize. rewrite (paramsEqual_loop_subseteq a) by done.
  split; [|by intros ->].
  intros Hsub. apply map_subseteq_size_eq; [done|lia].
Qed.

(** Every run of [paramsEqual] answers whether the two maps are equal. *)
Lemma paramsEqual_elem_of (a b : Params) (r : bool) :
  r ∈ paramsEqual a b ↔ r = bool_decide (a = b).
Proof.
  unfold paramsEqual. destruct (size a =? size b) eqn:Hsize; simpl.
  - apply Nat.eqb_eq in Hsize. rewrite list_elem_of_bind. split.
    + intros (ord & Hr & Hord). apply list_elem_of_ret in Hr as ->.
      apply eq_true_iff_eq.
      rewrite (paramsEqual_loop_eq a b), bool_decide_eq_true; done.
    + intros ->. exists (map_to_list a). split; [|apply range_inhabited].
      apply list_elem_of_ret. symmetry. apply eq_true_iff_eq.
      rewrite (paramsEqual_loop_eq a b), bool_decide_eq_true;
        [done|apply range_inhabited|done].
  - apply Nat.eqb_neq in Hsize. rewrite list_elem_of_ret.
    rewrite bool_decide_eq_false_2; [done|]. by intros ->.
Qed.

Lemma paramsEqual_refl (a : Params) (r : bool) : r ∈ paramsEqual a a ↔ r = true.
Proof. rewrite paramsEqual_elem_of. by rewrite bool_decide_eq_true_2. Qed.

(** C2. Every run of [paramsEqual a b], whatever the order in which the
    loop visits the entries of [a], returns [true] if and only if [a] and [b]
    have the same key set and, for every key, the same value-or-absence; at
    least one run exists, and all runs agree.  The order of the insertions
    that built a collection does not matter either: two collections built
    from the same entries in opposite orders compare equal. *)
Theorem paramsEqual_spec (a b : Params) :
  (∀ r, r ∈ paramsEqual a b ↔ (r = true ↔ same_params a b)) ∧
  (∀ r1 r2, r1 ∈ paramsEqual a b → r2 ∈ paramsEqual a b → r1 = r2) ∧
  (∀ k1 v1 k2 v2 r, k1 ≠ k2 →
     r ∈ paramsEqual (<[k1:=v1]> (<[k2:=v2]> a)) (<[k2:=v2]> (<[k1:=v1]> a)) →
     r = true).
Proof.
  split; [|split].
  - intros r. rewrite paramsEqual_elem_of, same_params_eq. split.
    + intros ->. by rewrite bool_decide_eq_true.
    + intros Hr. apply eq_true_iff_eq. by rewrite bool_decide_eq_true.
  - intros r1 r2. rewrite !paramsEqual_elem_of. congruence.
  - intros k1 v1 k2 v2 r Hne. rewrite paramsEqual_elem_of. intros ->.
    apply bool_decide_eq_true. by apply insert_insert_ne.
Qed.

(** ** Equality of URIs *)

Lemma same_optional_eq {A : Type} (x y : option A) : same_optional x y ↔ x = y.
Proof. destruct x, y; simpl; split; try done; congruence. Qed.

Lemma same_SipUri_eq (a b : SipUri) : same_SipUri a b ↔ a = b.
Proof.
  unfold same_SipUri. rewrite !same_optional_eq, !same_params_eq.
  split; [|by intros ->].
  destruct a, b; simpl. intros (-> & -> & -> & -> & -> & -> & ->). done.
Qed.

(** The conjunction of the five field comparisons of [SipUri.Equals]. *)
Lemma SipUri_fields_true (a b : SipUri) :
  Bool.eqb (IsEncrypted a) (IsEncrypted b) &&
  strPtrEq (User a) (User b) &&
  strPtrEq (Password a) (Password b) &&
  String.eqb (Host a) (Host b) &&
  uint16PtrEq (Port a) (Port b) = true ↔
  IsEncrypted a = IsEncrypted b ∧ User a = User b ∧ Password a = Password b ∧
  Host a = Host b ∧ Port a = Port b.
Proof.
  rewrite !andb_true_iff, Bool.eqb_true_iff, !strPtrEq_true, String.eqb_eq,
    uint16PtrEq_true.
  tauto.
Qed.

(** Every run of [SipUri.Equals] on two SIP URIs answers whether they are
    the same value. *)
Lemma SipUri_Equals_elem_of (a b : SipUri) (r : bool) :
  r ∈ SipUri_Equals a (USip b) ↔ r = bool_decide (a = b).
Proof.
  unfold SipUri_Equals.
  destruct (_ && _) eqn:Hfields; simpl.
  - apply SipUri_fields_true in Hfields as (He & Hu & Hp & Hh & Hpt).
    rewrite list_elem_of_bind. setoid_rewrite paramsEqual_elem_of.
    destruct (decide (UriParams a = UriParams b)) as [Hup|Hup].
    + destruct (decide (Headers a = Headers b)) as [Hhd|Hhd].
      * rewrite (bool_decide_eq_true_2 (a = b))
          by (destruct a, b; simpl in *; congruence).
        split.
        -- intros (x & Hr & ->). rewrite bool_decide_eq_true_2 in Hr by done.
           simpl in Hr. apply list_elem_of_bind in Hr as (y & Hr & Hy).
           apply paramsEqual_elem_of in Hy as ->.
           rewrite bool_decide_eq_true_2 in Hr by done.
           by apply list_elem_of_ret in Hr.
        -- intros ->. exists true. split; [|by rewrite bool_decide_eq_true_2].
           simpl. apply list_elem_of_bind. exists true. split.
           ++ by apply list_elem_of_ret.
           ++ apply paramsEqual_elem_of. by rewrite bool_decide_eq_true_2.
      * rewrite (bool_decide_eq_false_2 (a = b)) by (intros ->; done).
        split.
        -- intros (x & Hr & ->). rewrite bool_decide_eq_true_2 in Hr by done.
           simpl in Hr. apply list_elem_of_bind in Hr as (y & Hr & Hy).
           apply paramsEqual_elem_of in Hy as ->.
           rewrite bool_decide_eq_false_2 in Hr by done.
           by apply list_elem_of_ret in Hr.
        -- intros ->. exists true. split; [|by rewrite bool_decide_eq_true_2].
           simpl. apply list_elem_of_bind. exists false. split.
           ++ by apply list_elem_of_ret.
           ++ apply paramsEqual_elem_of. by rewrite bool_decide_eq_false_2.
    + rewrite (bool_decide_eq_false_2 (a = b)) by (intros ->; done).
      split.
      * intros (x & Hr & ->). rewrite bool_decide_eq_false_2 in Hr by done.
        by apply list_elem_of_ret in Hr.
      * intros ->. exists false. split; [|by rewrite bool_decide_eq_false_2].
        by apply list_elem_of_ret.
  - rewrite list_elem_of_ret.
    rewrite (bool_decide_eq_false_2 (a = b)); [done|].
    intros ->. apply not_true_iff_false in Hfields. apply Hfields.
    by apply SipUri_fields_true.
Qed.

Lemma Uri_Equals_elem_of (a b : Uri) (r : bool) :
  r ∈ Uri_Equals a b ↔ r = bool_decide (a = b).
Proof.
  destruct a as [a|[]], b as [b|[]]; unfold Uri_Equals.
  - rewrite SipUri_Equals_elem_of. destruct (decide (a = b)) as [->|Hne].
    + by rewrite !bool_decide_eq_true_2.
    + rewrite !bool_decide_eq_false_2; [done|congruence|done].
  - apply (list_elem_of_ret r false).
  - apply (list_elem_of_ret r false).
  - apply (list_elem_of_ret r true).
Qed.

(** C1. [a.Equals(b)] returns [false] when [b] is not a SIP/SIPS URI;
    otherwise every run returns [true] if and only if the two URIs have the
    same encryption flag, the same optional user, the same optional password,
    the same host as strings, the same optional port, and equal URI-parameter
    and header-parameter collections.  In particular [sip:a@b.com] and
    [sip:a@b.com:5060] are not equal, in either direction, and neither are
    two URIs whose hosts differ in case only. *)
Theorem SipUri_Equals_spec :
  (∀ a w r, r ∈ SipUri_Equals a (UWildcard w) ↔ r = false) ∧
  (∀ a b r, r ∈ SipUri_Equals a (USip b) ↔ (r = true ↔ same_SipUri a b)) ∧
  SipUri_Equals sip_a_b (USip sip_a_b_5060) = [false] ∧
  SipUri_Equals sip_a_b_5060 (USip sip_a_b) = [false] ∧
  SipUri_Equals sip_a_b (USip sip_a_B) = [false].
Proof.
  split; [|split; [|by vm_compute]].
  - intros a w r. simpl. apply list_elem_of_ret.
  - intros a b r. rewrite SipUri_Equals_elem_of, same_SipUri_eq. split.
    + intros ->. by rewrite bool_decide_eq_true.
    + intros Hr. apply eq_true_iff_eq. by rewrite bool_decide_eq_true.
Qed.

(** C10. URI equality is reflexive: every run of [a.Equals(a)] returns
    [true].  It is symmetric: [a.Equals(b)] and [b.Equals(a)] each have one
    possible result, and it is the same one; across the two variants both
    directions return [false].  The comparison of the sizes is needed for
    this: the loop of [paramsEqual] alone, which visits the keys of its left
    argument only, is not symmetric. *)
Theorem Uri_Equals_refl_sym :
  (∀ a r, r ∈ Uri_Equals a a ↔ r = true) ∧
  (∀ a b, ∃ v, (∀ r, r ∈ Uri_Equals a b ↔ r = v) ∧
               (∀ r, r ∈ Uri_Equals b a ↔ r = v)) ∧
  (∀ s w r, (r ∈ Uri_Equals (USip s) (UWildcard w) ↔ r = false) ∧
            (r ∈ Uri_Equals (UWildcard w) (USip s) ↔ r = false)) ∧
  (∃ a b : Params,
     paramsEqual_loop (map_to_list a) b = true ∧
     paramsEqual_loop (map_to_list b) a = false).
Proof.
  split; [|split; [|split]].
  - intros a r. rewrite Uri_Equals_elem_of. by rewrite bool_decide_eq_true_2.
  - intros a b. exists (bool_decide (a = b)). split; intros r.
    + apply Uri_Equals_elem_of.
    + rewrite Uri_Equals_elem_of. destruct (decide (a = b)) as [->|Hne]; [done|].
      by rewrite !bool_decide_eq_false_2.
  - intros s w r. rewrite !Uri_Equals_elem_of.
    by rewrite !bool_decide_eq_false_2.
  - exists ∅, {[ "k"%string := None ]}. by vm_compute.
Qed.

(** C6. [WildcardUri.String()] is [*]; [WildcardUri.Equals(other)] is
    [true] if and only if [other] is a wildcard URI, so a wildcard equals a
    wildcard and the comparison of a wildcard with a SIP URI is [false] in
    both directions; [WildcardUri.IsWildcard()] is [true] and
    [SipUri.IsWildcard()] is [false]. *)
Theorem WildcardUri_spec :
  (∀ w, WildcardUri_String w = "*"%string) ∧
  (∀ w other, WildcardUri_Equals w other = true ↔ ∃ w', other = UWildcard w') ∧
  (∀ w w', WildcardUri_Equals w (UWildcard w') = true) ∧
  (∀ w s, WildcardUri_Equals w (USip s) = false) ∧
  (∀ s w r, r ∈ SipUri_Equals s (UWildcard w) ↔ r = false) ∧
  (∀ w, WildcardUri_IsWildcard w = true) ∧
  (∀ s, SipUri_IsWildcard s = false).
Proof.
  repeat split; try done.
  - destruct other as [s|w']; [done|]. by exists w'.
  - by intros [w' ->].
  - intros Hr. simpl in Hr. by apply list_elem_of_ret in Hr.
  - intros ->. simpl. by apply list_elem_of_ret.
Qed.

(** ** Rendering of parameter collections *)

Lemma append_nil_l (s : string) : EmptyString +:+ s = s.
Proof. reflexivity. Qed.

Lemma append_cons (c : ascii) (s1 s2 : string) :
  String c s1 +:+ s2 = String c (s1 +:+ s2).
Proof. reflexivity. Qed.

Lemma append_assoc (s1 s2 s3 : string) : (s1 +:+ s2) +:+ s3 = s1 +:+ (s2 +:+ s3).
Proof.
  induction s1 as [|c s1 IH]; [done|]. by rewrite !append_cons, IH.
Qed.

Lemma append_nil_r (s : string) : s +:+ EmptyString = s.
Proof. induction s as [|c s IH]; [done|]. by rewrite append_cons, IH. Qed.

Lemma occurs_append (c : ascii) (s1 s2 : string) :
  occurs c (s1 +:+ s2) ↔ occurs c s1 ∨ occurs c s2.
Proof.
  induction s1 as [|x s1 IH]; [rewrite append_nil_l; simpl; tauto|].
  rewrite append_cons. simpl. rewrite IH. tauto.
Qed.

Lemma ContainsByte_true (s : string) (c : ascii) :
  ContainsByte s c = true ↔ occurs c s.
Proof.
  induction s as [|x s IH]; simpl; [done|].
  destruct (Ascii.eqb_spec x c) as [->|Hne]; [tauto|].
  rewrite IH. tauto.
Qed.

Lemma ContainsAny_true (s chars : string) :
  ContainsAny s chars = true ↔ ∃ c, occurs c s ∧ occurs c chars.
Proof.
  induction s as [|x s IH]; simpl.
  - split; [done|]. by intros (c & [] & _).
  - destruct (ContainsByte chars x) eqn:Hx.
    + apply ContainsByte_true in Hx. split; [|done]. intros _. exists x. tauto.
    + rewrite IH. split.
      * intros (c & Hc & Hch). exists c. tauto.
      * intros (c & [->|Hc] & Hch); [|by exists c].
        apply ContainsByte_true in Hch. congruence.
Qed.

Lemma ContainsAny_ABNF_WS (v : string) :
  ContainsAny v ABNF_WS = true ↔ has_whitespace v.
Proof.
  rewrite ContainsAny_true. unfold has_whitespace, ABNF_WS. simpl.
  split; intros (c & Hc & Hws); exists c; (split; [done|]); intuition auto.
Qed.

Lemma render_entry_form (kv : Entry) : entry_form kv (render_entry kv).
Proof.
  destruct kv as [key [v|]]; simpl; [|constructor].
  destruct (ContainsAny v ABNF_WS) eqn:Hws.
  - apply form_quoted. by apply ContainsAny_ABNF_WS.
  - apply form_plain. rewrite <- ContainsAny_ABNF_WS. congruence.
Qed.

Lemma entry_form_inv (kv : Entry) (e : string) :
  entry_form kv e → e = render_entry kv.
Proof.
  intros [key|key v Hws|key v Hws]; simpl; [done| |].
  - rewrite <- ContainsAny_ABNF_WS in Hws. by destruct (ContainsAny v ABNF_WS).
  - apply ContainsAny_ABNF_WS in Hws. by rewrite Hws.
Qed.

Lemma Forall2_entry_form (ord : list Entry) (es : list string) :
  Forall2 entry_form ord es ↔ es = map render_entry ord.
Proof.
  split.
  - induction 1 as [|kv e ord es Hform _ IH]; simpl; [done|].
    by rewrite IH, (entry_form_inv kv e).
  - intros ->. induction ord as [|kv ord IH]; simpl; constructor; [|done].
    apply render_entry_form.
Qed.

Lemma ParamsToString_step_eq (start sep : ascii) (buffer : string) (first : bool)
    (kv : Entry) :
  ParamsToString_step start sep (buffer, first) kv =
  (buffer +:+ fmt_c (if first then start else sep) +:+ render_entry kv, false).
Proof.
  destruct kv as [key [v|]]; unfold ParamsToString_step, WriteString; simpl;
    destruct first; try destruct (ContainsAny v ABNF_WS);
    by rewrite append_assoc.
Qed.

(** After the first round the loop appends a separator and an entry per
    round. *)
Lemma ParamsToString_rest (start sep : ascii) (ord : list Entry) (e : string)
    (buffer : string) :
  (foldl (ParamsToString_step start sep) (buffer +:+ e, false) ord).1 =
  buffer +:+ Join (e :: map render_entry ord) (fmt_c sep).
Proof.
  revert e buffer. induction ord as [|kv ord IH]; intros e buffer; [done|].
  cbn [foldl map]. rewrite ParamsToString_step_eq.
  rewrite <- (append_assoc (buffer +:+ e)). rewrite IH.
  change (Join (e :: render_entry kv :: map render_entry ord) (fmt_c sep))
    with (e +:+ fmt_c sep +:+ Join (render_entry kv :: map render_entry ord) (fmt_c sep)).
  by rewrite !append_assoc.
Qed.

Lemma ParamsToString_loop_eq (start sep : ascii) (ord : list Entry) :
  ParamsToString_loop ord start sep =
  render_entries start sep (map render_entry ord).
Proof.
  unfold ParamsToString_loop. destruct ord as [|kv ord]; [done|].
  cbn [foldl map render_entries]. rewrite ParamsToString_step_eq.
  change (EmptyString +:+ fmt_c start +:+ render_entry kv)
    with (fmt_c start +:+ render_entry kv).
  apply ParamsToString_rest.
Qed.

Lemma ParamsToString_elem_of (start sep : ascii) (params : Params) (s : string) :
  s ∈ ParamsToString params start sep ↔
  ∃ ord, ord ≡ₚ map_to_list params ∧
         s = render_entries start sep (map render_entry ord).
Proof.
  unfold ParamsToString. rewrite list_elem_of_bind. split.
  - intros (ord & Hs & Hord). apply list_elem_of_ret in Hs as ->.
    exists ord. split; [by apply range_spec|apply ParamsToString_loop_eq].
  - intros (ord & Hord & ->). exists ord. split; [|by apply range_spec].
    apply list_elem_of_ret. symmetry. apply ParamsToString_loop_eq.
Qed.

Lemma ParamsToString_inhabited (start sep : ascii) (params : Params) :
  ∃ s, s ∈ ParamsToString params start sep.
Proof.
  eexists. apply ParamsToString_elem_of. by exists (map_to_list params).
Qed.

Lemma ParamsToString_empty (start sep : ascii) :
  ParamsToString ∅ start sep = [EmptyString].
Proof. unfold ParamsToString, range. by rewrite map_to_list_empty. Qed.

(** C3. [ParamsToString] returns the empty string for the empty collection.
    For every collection it returns a string, and the strings it can return
    are, for the entries taken in some order, the empty string when there is
    no entry and otherwise the start character followed by the renderings of
    the entries with the separator character between them: [key] for an
    absent value, [key=value] for a value without whitespace (space, tab,
    CR, LF), and [key="value"] for a value with whitespace.  A start or
    separator character below 0x80 is emitted as that one byte.  The value
    [a b] is rendered quoted and the value [ab] unquoted. *)
Theorem ParamsToString_spec (start sep : ascii) :
  ParamsToString ∅ start sep = [EmptyString] ∧
  (∀ params, ∃ s, s ∈ ParamsToString params start sep) ∧
  (∀ params s,
     s ∈ ParamsToString params start sep ↔
     ∃ ord es, ord ≡ₚ map_to_list params ∧ Forall2 entry_form ord es ∧
       s = match es with
           | [] => EmptyString
           | _ => fmt_c start +:+ Join es (fmt_c sep)
           end) ∧
  (∀ c, (N_of_ascii c < 128)%N → fmt_c c = String c EmptyString) ∧
  ParamsToString {[ "k"%string := Some "a b"%string ]} ";" ";" =
    [";k=" +:+ dquote +:+ "a b" +:+ dquote] ∧
  ParamsToString {[ "k"%string := Some "ab"%string ]} ";" ";" = [";k=ab"%string].
Proof.
  split; [apply ParamsToString_empty|].
  split; [apply ParamsToString_inhabited|].
  split; [|split; [|by vm_compute]].
  - intros params s. rewrite ParamsToString_elem_of. split.
    + intros (ord & Hord & ->). exists ord, (map render_entry ord).
      split; [done|]. split; [by apply Forall2_entry_form|done].
    + intros (ord & es & Hord & Hes & ->). exists ord. split; [done|].
      by apply Forall2_entry_form in Hes as ->.
  - intros c Hc. unfold fmt_c. apply N.ltb_lt in Hc. by rewrite Hc.
Qed.

(** ** Rendering of SIP URIs *)

Lemma SipUri_String_elem_of (uri : SipUri) (s : string) :
  s ∈ SipUri_String uri ↔
  ∃ uriParams headers,
    uriParams ∈ ParamsToString (UriParams uri) ";" ";" ∧
    headers ∈ ParamsToString (Headers uri) "?" "&" ∧
    s = SipUri_prefix uri +:+ uriParams +:+ headers.
Proof.
  unfold SipUri_String, SipUri_prefix, WriteString. split.
  - intros H. apply list_elem_of_bind in H as (ps & H & Hps).
    apply list_elem_of_bind in H as (hs & H & Hhs).
    apply list_elem_of_ret in H as ->.
    exists ps, hs. split; [done|]. split; [done|].
    destruct (IsEncrypted uri), (User uri), (Password uri), (Port uri);
      rewrite ?append_nil_l, ?append_nil_r, ?append_assoc; reflexivity.
  - intros (ps & hs & Hps & Hhs & ->).
    apply list_elem_of_bind. exists ps. split; [|done].
    apply list_elem_of_bind. exists hs. split; [|done].
    apply list_elem_of_ret.
    destruct (IsEncrypted uri), (User uri), (Password uri), (Port uri);
      rewrite ?append_nil_l, ?append_nil_r, ?append_assoc; reflexivity.
Qed.

Lemma SipUri_String_inhabited (uri : SipUri) : ∃ s, s ∈ SipUri_String uri.
Proof.
  destruct (ParamsToString_inhabited ";" ";" (UriParams uri)) as [ps Hps].
  destruct (ParamsToString_inhabited "?" "&" (Headers uri)) as [hs Hhs].
  eexists. apply SipUri_String_elem_of. by exists ps, hs.
Qed.


(** ** Rendering of headers *)

(** The renderings with start and separator [;], entry by entry. *)
Lemma ParamsToString_semicolon (params : Params) (s : string) :
  s ∈ ParamsToString params ";" ";" ↔
  ∃ ord es, ord ≡ₚ map_to_list params ∧ Forall2 entry_form ord es ∧
    s = match es with
        | [] => EmptyString
        | _ => ";" +:+ Join es ";"
        end.
Proof.
  rewrite ParamsToString_elem_of. split.
  - intros (ord & Hord & ->). exists ord, (map render_entry ord).
    split; [done|]. split; [by apply Forall2_entry_form|done].
  - intros (ord & es & Hord & Hes & ->). exists ord. split; [done|].
    by apply Forall2_entry_form in Hes as ->.
Qed.

Lemma ContactHeader_String_elem_of (contact : ContactHeader) (s : string) :
  s ∈ ContactHeader_String contact ↔
  ∃ uri params,
    match contact_uri contact with
    | UWildcard _ => uri = "*"%string
    | USip u => ∃ us, us ∈ SipUri_String u ∧ uri = "<" +:+ us +:+ ">"
    end ∧
    params ∈ ParamsToString (contact_params contact) ";" ";" ∧
    s = "Contact: " +:+
        match contact_displayName contact with
        | Some name => dquote +:+ name +:+ dquote +:+ " "
        | None => EmptyString
        end +:+ uri +:+ params.
Proof.
  unfold ContactHeader_String, WriteString. split.
  - intros H. apply list_elem_of_bind in H as (u & H & Hu).
    apply list_elem_of_bind in H as (ps & H & Hps).
    apply list_elem_of_ret in H as ->.
    exists u, ps. split; [|split; [done|]].
    + destruct (contact_uri contact) as [su|w].
      * apply list_elem_of_bind in Hu as (us & Hu & Hus).
        apply list_elem_of_ret in Hu. by exists us.
      * by apply list_elem_of_ret in Hu.
    + destruct (contact_displayName contact);
        rewrite ?append_nil_l, ?append_nil_r, ?append_assoc; reflexivity.
  - intros (u & ps & Hu & Hps & ->).
    apply list_elem_of_bind. exists u. split.
    + apply list_elem_of_bind. exists ps. split; [|done].
      apply list_elem_of_ret.
      destruct (contact_displayName contact);
        rewrite ?append_nil_l, ?append_nil_r, ?append_assoc; reflexivity.
    + destruct (contact_uri contact) as [su|w].
      * destruct Hu as (us & Hus & ->). apply list_elem_of_bind.
        exists us. split; [by apply list_elem_of_ret|done].
      * by apply list_elem_of_ret.
Qed.

(** C7. [ContactHeader.String()] always returns a string, and the strings
    it can return are: [Contact: ]; then the display name in double quotes
    followed by a space, only if the display name is present; then the bare
    [*] when the URI is the wildcard URI, and otherwise a rendering of the URI
    between [<] and [>]; then a rendering of the parameters with start and
    separator [;]: nothing when there is no parameter, and otherwise [;]
    followed by the entries, each of the form [key], [key=value] or
    [key="value"], with [;] between them.  The header with display name
    [Alice], URI [sip:alice@atlanta.com] and no parameters renders as
    [Contact: "Alice" <sip:alice@atlanta.com>] exactly; with the parameters
    [expires=3600] and [q=0.7] it renders with [;expires=3600;q=0.7] or
    [;q=0.7;expires=3600] after the URI; the wildcard with [expires=0] renders
    as [Contact: *;expires=0]. *)
Theorem ContactHeader_String_spec :
  (∀ contact, ∃ s, s ∈ ContactHeader_String contact) ∧
  (∀ contact s,
     s ∈ ContactHeader_String contact ↔
     ∃ uri params,
       match contact_uri contact with
       | UWildcard _ => uri = "*"%string
       | USip u => ∃ us, us ∈ SipUri_String u ∧ uri = "<" +:+ us +:+ ">"
       end ∧
       params ∈ ParamsToString (contact_params contact) ";" ";" ∧
       s = "Contact: " +:+
           match contact_displayName contact with
           | Some name => dquote +:+ name +:+ dquote +:+ " "
           | None => EmptyString
           end +:+ uri +:+ params) ∧
  (∀ contact s,
     s ∈ ContactHeader_String contact ↔
     ∃ uri ord es,
       match contact_uri contact with
       | UWildcard _ => uri = "*"%string
       | USip u => ∃ us, us ∈ SipUri_String u ∧ uri = "<" +:+ us +:+ ">"
       end ∧
       ord ≡ₚ map_to_list (contact_params contact) ∧
       Forall2 entry_form ord es ∧
       s = "Contact: " +:+
           match contact_displayName contact with
           | Some name => dquote +:+ name +:+ dquote +:+ " "
           | None => EmptyString
           end +:+ uri +:+
           match es with
           | [] => EmptyString
           | _ => ";" +:+ Join es ";"
           end) ∧
  ContactHeader_String
    {| contact_displayName := Some "Alice"%string;
       contact_uri := USip sip_alice; contact_params := ∅ |} =
    ["Contact: " +:+ dquote +:+ "Alice" +:+ dquote +:+ " <sip:alice@atlanta.com>"] ∧
  ContactHeader_String
    {| contact_displayName := None;
       contact_uri := UWildcard mkWildcardUri; contact_params := ∅ |} =
    ["Contact: *"%string] ∧
  ContactHeader_String
    {| contact_displayName := None;
       contact_uri := UWildcard mkWildcardUri;
       contact_params := {[ "expires"%string := Some "0"%string ]} |} =
    ["Contact: *;expires=0"%string] ∧
  ContactHeader_String
    {| contact_displayName := Some "Alice"%string;
       contact_uri := USip sip_alice;
       contact_params := <[ "q"%string := Some "0.7"%string ]>
                           {[ "expires"%string := Some "3600"%string ]} |} =
    ["Contact: " +:+ dquote +:+ "Alice" +:+ dquote +:+
       " <sip:alice@atlanta.com>;expires=3600;q=0.7";
     "Contact: " +:+ dquote +:+ "Alice" +:+ dquote +:+
       " <sip:alice@atlanta.com>;q=0.7;expires=3600"] ∧
  ContactHeader_String
    {| contact_displayName := None;
       contact_uri := USip sips_alice;
       contact_params := <[ "x"%string := Some "a b"%string ]>
                           {[ "lr"%string := None ]} |} =
    ["Contact: <sips:alice:secret@atlanta.com:5061;transport=tcp?subject=hi>;lr;x="
       +:+ dquote +:+ "a b" +:+ dquote;
     "Contact: <sips:alice:secret@atlanta.com:5061;transport=tcp?subject=hi>;x="
       +:+ dquote +:+ "a b" +:+ dquote +:+ ";lr"].
Proof.
  split; [|split; [apply ContactHeader_String_elem_of|split; [|by vm_compute]]].
  - intros contact.
    destruct (ParamsToString_inhabited ";" ";" (contact_params contact)) as [ps Hps].
    destruct (contact_uri contact) as [su|w] eqn:Huri.
    + destruct (SipUri_String_inhabited su) as [us Hus].
      eexists. apply ContactHeader_String_elem_of. rewrite Huri.
      exists ("<" +:+ us +:+ ">"), ps. split; [by exists us|done].
    + eexists. apply ContactHeader_String_elem_of. rewrite Huri.
      by exists "*"%string, ps.
  - intros contact s. rewrite ContactHeader_String_elem_of. split.
    + intros (uri & ps & Huri & Hps & ->).
      apply ParamsToString_semicolon in Hps as (ord & es & Hord & Hes & ->).
      by exists uri, ord, es.
    + intros (uri & ord & es & Huri & Hord & Hes & ->).
      eexists uri, _. split; [done|]. split; [|reflexivity].
      apply ParamsToString_semicolon. by exists ord, es.
Qed.

Lemma ViaHop_String_elem_of (entry : ViaHop) (s : string) :
  s ∈ ViaHop_String entry ↔
  ∃ ps, ps ∈ ParamsToString (params entry) ";" ";" ∧
        s = ViaHop_prefix entry +:+ ps.
Proof.
  unfold ViaHop_String, ViaHop_prefix, WriteString. split.
  - intros H. apply list_elem_of_bind in H as (ps & H & Hps).
    apply list_elem_of_ret in H as ->. exists ps. split; [done|].
    destruct (port entry);
      rewrite ?append_nil_l, ?append_nil_r, ?append_assoc; reflexivity.
  - intros (ps & Hps & ->). apply list_elem_of_bind. exists ps. split; [|done].
    apply list_elem_of_ret.
    destruct (port entry);
      rewrite ?append_nil_l, ?append_nil_r, ?append_assoc; reflexivity.
Qed.

Lemma ViaHop_String_inhabited (entry : ViaHop) : ∃ s, s ∈ ViaHop_String entry.
Proof.
  destruct (ParamsToString_inhabited ";" ";" (params entry)) as [ps Hps].
  eexists. apply ViaHop_String_elem_of. by exists ps.
Qed.

Lemma hop_renderings_inhabited (via : list ViaHop) : ∃ hs, hop_renderings via hs.
Proof.
  induction via as [|entry via [hs IH]]; [exists []; by apply Forall2_nil|].
  destruct (ViaHop_String_inhabited entry) as [h Hh].
  exists (h :: hs). by apply Forall2_cons.
Qed.

(** The loop started at index [idx] with [rest] still to visit, where
    [idx + len(rest) = len(via)], appends the renderings of the hops of
    [rest] joined by a comma and a space. *)
Lemma ViaHeader_loop_elem_of (len idx : Z) (rest : list ViaHop)
    (buffer s : string) :
  (idx + Z.of_nat (length rest))%Z = len →
  s ∈ ViaHeader_loop len idx rest buffer ↔
  ∃ hs, hop_renderings rest hs ∧ s = buffer +:+ Join hs ", ".
Proof.
  unfold hop_renderings.
  revert idx buffer. induction rest as [|entry rest IH]; intros idx buffer Hlen.
  - simpl. rewrite (list_elem_of_ret s buffer). split.
    + intros ->. exists []. split; [by apply Forall2_nil|]. by rewrite append_nil_r.
    + intros (hs & Hhs & ->). apply Forall2_nil_inv_l in Hhs as ->.
      by rewrite append_nil_r.
  - cbn [ViaHeader_loop]. unfold WriteString. rewrite list_elem_of_bind.
    rewrite length_cons in Hlen. split.
    + intros (h & Hs & Hh). apply IH in Hs as (hs & Hhs & ->); [|lia].
      exists (h :: hs). split; [by apply Forall2_cons|].
      destruct (Z.eqb_spec idx (len - 1)) as [Hidx|Hidx]; simpl.
      * destruct rest; [|simpl in Hlen; lia].
        apply Forall2_nil_inv_l in Hhs as ->. simpl.
        by rewrite !append_nil_r.
      * destruct hs as [|h' hs].
        { apply Forall2_nil_inv_r in Hhs as ->. simpl in Hlen. lia. }
        change (Join (h :: h' :: hs) ", ")
          with (h +:+ ", " +:+ Join (h' :: hs) ", ").
        by rewrite !append_assoc.
    + intros (hs & Hhs & ->).
      apply Forall2_cons_inv_l in Hhs as (h & hs' & Hh & Hhs & ->).
      exists h. split; [|done]. apply IH; [lia|].
      exists hs'. split; [done|].
      destruct (Z.eqb_spec idx (len - 1)) as [Hidx|Hidx]; simpl.
      * destruct rest; [|simpl in Hlen; lia].
        apply Forall2_nil_inv_l in Hhs as ->. simpl.
        by rewrite !append_nil_r.
      * destruct hs' as [|h' hs].
        { apply Forall2_nil_inv_r in Hhs as ->. simpl in Hlen. lia. }
        change (Join (h :: h' :: hs) ", ")
          with (h +:+ ", " +:+ Join (h' :: hs) ", ").
        by rewrite !append_assoc.
Qed.

(** C8. A Via hop renders as [protocolName/protocolVersion/transport host],
    then [:port] in decimal if the port is present, then a rendering of its
    parameters with start and separator [;]: nothing when there is no
    parameter, and otherwise [;] followed by the entries, each of the form
    [key], [key=value] or [key="value"], with [;] between them.
    [ViaHeader.String()] always returns a string, and for every sequence of
    hops, non-empty or not, the strings it can return are [Via: ] followed by
    one rendering of each hop, in the order of the sequence, joined by a comma
    and a space.  The hops [SIP/2.0/UDP bigbox.example.com] and
    [SIP/2.0/UDP pc33.example.com:5060] render as
    [Via: SIP/2.0/UDP bigbox.example.com, SIP/2.0/UDP pc33.example.com:5060]
    exactly; a hop with the parameter [branch=z9hG4bK776asdhds] renders with
    [;branch=z9hG4bK776asdhds] after its port, and a first hop with the
    parameters [rport] and [branch=z9] carries them, in either order, before
    the comma. *)
Theorem ViaHeader_String_spec :
  (∀ entry s,
     s ∈ ViaHop_String entry ↔
     ∃ ps, ps ∈ ParamsToString (params entry) ";" ";" ∧
       s = protocolName entry +:+ "/" +:+ protocolVersion entry +:+ "/" +:+
           transport entry +:+ " " +:+ host entry +:+
           match port entry with
           | Some p => ":" +:+ fmt_d p
           | None => EmptyString
           end +:+ ps) ∧
  (∀ entry s,
     s ∈ ViaHop_String entry ↔
     ∃ ord es,
       ord ≡ₚ map_to_list (params entry) ∧
       Forall2 entry_form ord es ∧
       s = protocolName entry +:+ "/" +:+ protocolVersion entry +:+ "/" +:+
           transport entry +:+ " " +:+ host entry +:+
           match port entry with
           | Some p => ":" +:+ fmt_d p
           | None => EmptyString
           end +:+
           match es with
           | [] => EmptyString
           | _ => ";" +:+ Join es ";"
           end) ∧
  (∀ via, ∃ s, s ∈ ViaHeader_String via) ∧
  (∀ via s,
     s ∈ ViaHeader_String via ↔
     ∃ hs, Forall2 (λ entry h, h ∈ ViaHop_String entry) via hs ∧
           s = "Via: " +:+ Join hs ", ") ∧
  ViaHeader_String [hop_bigbox; hop_pc33] =
    ["Via: SIP/2.0/UDP bigbox.example.com, SIP/2.0/UDP pc33.example.com:5060"%string] ∧
  ViaHeader_String
    [ {| protocolName := "SIP"; protocolVersion := "2.0"; transport := "UDP";
         host := "pc33.example.com"; port := Some 5060%N;
         params := {[ "branch"%string := Some "z9hG4bK776asdhds"%string ]} |} ] =
    ["Via: SIP/2.0/UDP pc33.example.com:5060;branch=z9hG4bK776asdhds"%string] ∧
  ViaHeader_String
    [ {| protocolName := "SIP"; protocolVersion := "2.0"; transport := "UDP";
         host := "h"; port := None;
         params := <[ "rport"%string := None ]>
                     {[ "branch"%string := Some "z9"%string ]} |};
      hop_pc33 ] =
    ["Via: SIP/2.0/UDP h;rport;branch=z9, SIP/2.0/UDP pc33.example.com:5060"%string;
     "Via: SIP/2.0/UDP h;branch=z9;rport, SIP/2.0/UDP pc33.example.com:5060"%string].
Proof.
  assert (∀ entry s,
     s ∈ ViaHop_String entry ↔
     ∃ ps, ps ∈ ParamsToString (params entry) ";" ";" ∧
       s = protocolName entry +:+ "/" +:+ protocolVersion entry +:+ "/" +:+
           transport entry +:+ " " +:+ host entry +:+
           match port entry with
           | Some p => ":" +:+ fmt_d p
           | None => EmptyString
           end +:+ ps) as Hhop.
  { intros entry s. rewrite ViaHop_String_elem_of. unfold ViaHop_prefix.
    split; intros (ps & Hps & ->); exists ps; (split; [done|]);
      by rewrite ?append_assoc. }
  split; [exact Hhop|]. split; [|split; [|split; [|by vm_compute]]].
  - intros entry s. rewrite Hhop. split.
    + intros (ps & Hps & ->).
      apply ParamsToString_semicolon in Hps as (ord & es & Hord & Hes & ->).
      by exists ord, es.
    + intros (ord & es & Hord & Hes & ->). eexists. split; [|reflexivity].
      apply ParamsToString_semicolon. by exists ord, es.
  - intros via. destruct (hop_renderings_inhabited via) as [hs Hhs].
    eexists. unfold ViaHeader_String.
    apply ViaHeader_loop_elem_of; [lia|]. by exists hs.
  - intros via s. unfold ViaHeader_String.
    by rewrite ViaHeader_loop_elem_of by lia.
Qed.

(** C9, counterexample. The label [Call-ID] is not the label the code
    writes. *)
Lemma CallId_String_not_Call_ID :
  ¬ ∀ callId : CallId, CallId_String callId = "Call-ID" +:+ ": " +:+ callId.
Proof. intros H. specialize (H "a84b4c76e66710"%string). vm_compute in H. congruence. Qed.

(** C9, amended. The Call-ID header renders as the label [Call-Id], with
    a lower-case [d], followed by [: ] and the value verbatim; the label is
    the header name [Call-ID] up to the case of its letters. *)
Theorem CallId_String_spec (callId : CallId) :
  CallId_String callId = "Call-Id" +:+ ": " +:+ callId ∧
  to_lower "Call-Id" = to_lower "Call-ID" ∧
  "Call-Id"%string ≠ "Call-ID"%string.
Proof.
  split; [|split].
  - reflexivity.
  - by vm_compute.
  - discriminate.
Qed.

(** ** Splitting a rendered parameter collection *)

Lemma Split_pieces_no_occurs (s : string) (c : ascii) :
  ¬ occurs c s → Split_pieces s c = (s, []).
Proof.
  induction s as [|x s IH]; simpl; [done|]. intros Hno.
  rewrite IH by tauto.
  destruct (Ascii.eqb_spec x c) as [->|Hne]; [tauto|done].
Qed.

Lemma Split_pieces_append (a b : string) (c : ascii) :
  ¬ occurs c a →
  Split_pieces (a +:+ String c b) c = (a, Split b c).
Proof.
  unfold Split. induction a as [|x a IH]; intros Hno.
  - rewrite append_nil_l. simpl. rewrite Ascii.eqb_refl.
    by destruct (Split_pieces b c).
  - rewrite append_cons. simpl in *. rewrite IH by tauto.
    destruct (Ascii.eqb_spec x c) as [->|Hne]; [tauto|done].
Qed.

Lemma Split_Join (es : list string) (c : ascii) :
  es ≠ [] → Forall (λ e, ¬ occurs c e) es →
  Split (Join es (String c EmptyString)) c = es.
Proof.
  intros Hne Hall. induction Hall as [|e es He Hes IH]; [done|].
  destruct es as [|e' es].
  - unfold Split. simpl. by rewrite Split_pieces_no_occurs.
  - change (Join (e :: e' :: es) (String c EmptyString))
      with (e +:+ String c EmptyString +:+ Join (e' :: es) (String c EmptyString)).
    change (String c EmptyString +:+ Join (e' :: es) (String c EmptyString))
      with (String c (Join (e' :: es) (String c EmptyString))).
    unfold Split at 1. rewrite Split_pieces_append by done.
    by rewrite IH.
Qed.

Lemma Cut_no_occurs (s : string) (c : ascii) :
  ¬ occurs c s → Cut s c = (s, None).
Proof.
  induction s as [|x s IH]; simpl; [done|]. intros Hno.
  destruct (Ascii.eqb_spec x c) as [->|Hne]; [tauto|].
  by rewrite IH by tauto.
Qed.

Lemma Cut_append (key value : string) (c : ascii) :
  ¬ occurs c key → Cut (key +:+ String c value) c = (key, Some value).
Proof.
  induction key as [|x key IH]; intros Hno.
  - rewrite append_nil_l. simpl. by rewrite Ascii.eqb_refl.
  - rewrite append_cons. simpl in *.
    destruct (Ascii.eqb_spec x c) as [->|Hne]; [tauto|].
    by rewrite IH by tauto.
Qed.

Lemma render_entry_plain (key v : string) :
  ¬ has_whitespace v → render_entry (key, Some v) = key +:+ String "=" v.
Proof.
  intros Hws. simpl. rewrite <- ContainsAny_ABNF_WS in Hws.
  by destruct (ContainsAny v ABNF_WS).
Qed.

Lemma splittable_no_sep (sep : ascii) (kv : Entry) :
  sep ≠ "="%char → splittable sep kv → ¬ occurs sep (render_entry kv).
Proof.
  intros Hsep. destruct kv as [key [v|]]; intros (Hk & _ & Hv); simpl in Hk, Hv.
  - destruct (Hv v eq_refl) as [Hvs Hws].
    rewrite render_entry_plain, occurs_append by done. simpl.
    intros [?|[?|?]]; [tauto|congruence|tauto].
  - done.
Qed.

Lemma splittable_Cut (sep : ascii) (kv : Entry) :
  splittable sep kv → Cut (render_entry kv) "=" = kv.
Proof.
  destruct kv as [key [v|]]; intros (_ & Hk & Hv); simpl in Hk, Hv.
  - destruct (Hv v eq_refl) as [_ Hws].
    rewrite render_entry_plain by done. by apply Cut_append.
  - by apply Cut_no_occurs.
Qed.

Lemma splittable_Cut_all (sep : ascii) (ord : list Entry) :
  Forall (splittable sep) ord →
  map (λ e, Cut e "=") (map render_entry ord) = ord.
Proof.
  induction 1 as [|kv ord Hkv _ IH]; [done|].
  cbn [map]. by rewrite IH, (splittable_Cut sep kv).
Qed.

Lemma resplit_render_entries (start sep : ascii) (ord : list Entry) :
  (N_of_ascii start < 128)%N → (N_of_ascii sep < 128)%N → sep ≠ "="%char →
  Forall (splittable sep) ord →
  resplit sep (render_entries start sep (map render_entry ord)) = list_to_map ord.
Proof.
  intros Hstart Hsep Hne Hall. destruct ord as [|kv ord]; [done|].
  unfold render_entries, fmt_c. cbn [map].
  apply N.ltb_lt in Hstart, Hsep. rewrite Hstart, Hsep.
  rewrite append_cons, append_nil_l. unfold resplit.
  rewrite Split_Join.
  - change (render_entry kv :: map render_entry ord)
      with (map render_entry (kv :: ord)).
    by rewrite (splittable_Cut_all sep).
  - done.
  - change (Forall (λ e, ¬ occurs sep e) (render_entry <$> (kv :: ord))).
    apply Forall_fmap. eapply Forall_impl; [exact Hall|].
    intros e He. by apply splittable_no_sep.
Qed.

(** C5, counterexample. The round trip fails on a value that holds the
    separator: [k] with value [a;b] comes back as [k] with value [a] and a
    second key [b]. *)
Lemma resplit_ParamsToString_fails :
  ¬ ∀ (start sep : ascii) (params : Params) (s : string),
      s ∈ ParamsToString params start sep → resplit sep s = params.
Proof.
  intros H.
  specialize (H ";"%char ";"%char {[ "k"%string := Some "a;b"%string ]}
                ";k=a;b"%string).
  assert (ParamsToString {[ "k"%string := Some "a;b"%string ]} ";" ";" =
          [";k=a;b"%string]) as Hs by (by vm_compute).
  rewrite Hs in H. specialize (H (list_elem_of_here _ _)).
  apply (f_equal (λ m : Params, m !! "b"%string)) in H.
  vm_compute in H. discriminate H.
Qed.

(** It fails as well on a value that holds whitespace, which comes back
    inside double quotes. *)
Lemma resplit_ParamsToString_quoted :
  ∃ s, s ∈ ParamsToString {[ "k"%string := Some "a b"%string ]} ";" ";" ∧
       resplit ";" s !! "k"%string = Some (Some (dquote +:+ "a b" +:+ dquote)).
Proof.
  exists (";k=" +:+ dquote +:+ "a b" +:+ dquote). split; [|by vm_compute].
  assert (ParamsToString {[ "k"%string := Some "a b"%string ]} ";" ";" =
          [";k=" +:+ dquote +:+ "a b" +:+ dquote]) as -> by (by vm_compute).
  apply list_elem_of_here.
Qed.

(** C5, amended. For a start and a separator character below 0x80, the
    separator not being [=], and a collection in which no key holds the
    separator or [=] and no present value holds the separator or whitespace:
    dropping the start character of any string produced by [ParamsToString],
    splitting the rest on the separator and each piece at its first [=]
    gives back exactly the collection, whatever the order of the entries in
    the string. *)
Theorem resplit_ParamsToString (start sep : ascii) (params : Params) (s : string) :
  (N_of_ascii start < 128)%N → (N_of_ascii sep < 128)%N → sep ≠ "="%char →
  (∀ key value, params !! key = Some value → splittable sep (key, value)) →
  s ∈ ParamsToString params start sep →
  resplit sep s = params.
Proof.
  intros Hstart Hsep Hne Hall Hs.
  apply ParamsToString_elem_of in Hs as (ord & Hord & ->).
  rewrite resplit_render_entries; try done.
  - rewrite <- (list_to_map_to_list params). apply list_to_map_proper; [|done].
    rewrite Hord. apply NoDup_fst_map_to_list.
  - apply Forall_forall. intros [key value] Hin. apply Hall.
    rewrite Hord in Hin. by apply elem_of_map_to_list.
Qed.

(** C5, witness. The collection with [a=1] and the valueless [b], rendered
    with start [?] and separator [&]. *)
Lemma resplit_ParamsToString_witness :
  let params : Params := {[ "a"%string := Some "1"%string; "b"%string := None ]} in
  "?a=1&b"%string ∈ ParamsToString params "?" "&" ∧
  resplit "&" "?a=1&b" = params.
Proof.
  intros params.
  assert ("?a=1&b"%string ∈ ParamsToString params "?" "&") as Hs.
  { assert (ParamsToString params "?" "&" = ["?a=1&b"%string; "?b&a=1"%string])
      as -> by (by vm_compute).
    apply list_elem_of_here. }
  split; [exact Hs|].
  apply (resplit_ParamsToString "?" "&" params "?a=1&b");
    [reflexivity|reflexivity|discriminate| |exact Hs].
  intros key value Hin. apply elem_of_map_to_list in Hin.
  assert (map_to_list params = [("a"%string, Some "1"%string); ("b"%string, None)])
    as Hl by (by vm_compute).
  rewrite Hl in Hin.
  apply elem_of_cons in Hin as [[= -> ->]|Hin];
    [|apply elem_of_cons in Hin as [[= -> ->]|Hin];
      [|by apply elem_of_nil in Hin]].
  - split; [|split].
    + simpl. intros [?|[]]. discriminate.
    + simpl. intros [?|[]]. discriminate.
    + intros v [= <-]. split.
      * simpl. intros [?|[]]. discriminate.
      * intros (c & [<-|[]] & [?|[?|[?|?]]]); discriminate.
  - split; [|split].
    + simpl. intros [?|[]]. discriminate.
    + simpl. intros [?|[]]. discriminate.
    + intros v [=].
Defined.

(** * Further properties *)

(** ** Parameter collections *)

Lemma fmt_c_cons (c : ascii) : ∃ x rest, fmt_c c = String x rest.
Proof. unfold fmt_c. destruct (_ <? _)%N; eauto. Qed.

(** X1. [ParamsToString] can return the empty string if and only if the
    collection is empty, and every string it returns for a collection with
    an entry begins with the start character, as [%c] prints it: one byte,
    the character itself, when it is below 0x80. *)
Theorem ParamsToString_empty_iff (params : Params) (start sep : ascii) :
  (EmptyString ∈ ParamsToString params start sep ↔ params = ∅) ∧
  (∀ s, s ∈ ParamsToString params start sep → params ≠ ∅ →
     ∃ rest, s = fmt_c start +:+ rest) ∧
  (∀ s, s ∈ ParamsToString params start sep → params ≠ ∅ →
     (N_of_ascii start < 128)%N → ∃ rest, s = String start rest).
Proof.
  assert (∀ s, s ∈ ParamsToString params start sep → params ≠ ∅ →
            ∃ rest, s = fmt_c start +:+ rest) as Hstart.
  { intros s (ord & Hord & ->)%ParamsToString_elem_of Hne.
    destruct ord as [|kv ord].
    - destruct Hne. apply map_to_list_empty_iff. by apply Permutation_nil.
    - unfold render_entries. cbn [map]. eauto. }
  split; [|split; [exact Hstart|]].
  - split.
    + intros Hin. destruct (decide (params = ∅)) as [|Hne]; [done|].
      destruct (Hstart _ Hin Hne) as [rest Hrest].
      destruct (fmt_c_cons start) as (x & tl & Hc). rewrite Hc in Hrest.
      rewrite append_cons in Hrest. discriminate Hrest.
    + intros ->. rewrite ParamsToString_empty. apply list_elem_of_here.
  - intros s Hin Hne Hascii. destruct (Hstart s Hin Hne) as [rest ->].
    exists rest. unfold fmt_c. apply N.ltb_lt in Hascii. by rewrite Hascii.
Qed.




Lemma ParamsToString_singleton (key : string) (value : option string)
    (start sep : ascii) :
  ParamsToString {[ key := value ]} start sep =
  [fmt_c start +:+ render_entry (key, value)].
Proof.
  unfold ParamsToString, range. rewrite map_to_list_singleton.
  change (permutations [(key, value)]) with [[(key, value)]].
  change ([ParamsToString_loop [(key, value)] start sep] =
          [fmt_c start +:+ render_entry (key, value)]).
  by rewrite ParamsToString_loop_eq.
Qed.

(** X3. A parameter without a value and the same parameter with the empty
    value are different: the two collections never compare equal, and they
    render differently, as [key] and as [key=]. *)
Theorem absent_is_not_empty (key : string) (m : Params) (start sep : ascii) :
  (∀ r, r ∈ paramsEqual (<[key:=None]> m) (<[key:=Some EmptyString]> m) ↔ r = false) ∧
  ParamsToString {[ key := None ]} start sep = [fmt_c start +:+ key] ∧
  ParamsToString {[ key := Some EmptyString ]} start sep =
    [fmt_c start +:+ key +:+ "="] ∧
  fmt_c start +:+ key ≠ fmt_c start +:+ key +:+ "=".
Proof.
  split; [|split; [|split]].
  - intros r. rewrite paramsEqual_elem_of. rewrite bool_decide_eq_false_2; [done|].
    intros Heq. apply (f_equal (λ m : Params, m !! key)) in Heq.
    rewrite !lookup_insert_eq in Heq. discriminate Heq.
  - apply ParamsToString_singleton.
  - apply ParamsToString_singleton.
  - intros Heq. apply (inj (String.append (fmt_c start))) in Heq.
    rewrite <- (append_nil_r key) in Heq at 1.
    apply (inj (String.append key)) in Heq. discriminate Heq.
Qed.

(** ** URIs *)

(** X4. URI equality is transitive: when [a.Equals(b)] and [b.Equals(c)]
    can return [true], [a.Equals(c)] returns [true] and nothing else.  With
    reflexivity and symmetry, equality is an equivalence on URI values. *)
Theorem Uri_Equals_trans (a b c : Uri) :
  true ∈ Uri_Equals a b → true ∈ Uri_Equals b c →
  ∀ r, r ∈ Uri_Equals a c ↔ r = true.
Proof.
  rewrite !Uri_Equals_elem_of. intros Hab Hbc r. rewrite Uri_Equals_elem_of.
  symmetry in Hab, Hbc. apply bool_decide_eq_true in Hab, Hbc.
  rewrite bool_decide_eq_true_2 by congruence. done.
Qed.

Lemma Uri_Equals_trans_witness :
  true ∈ Uri_Equals (USip sips_alice) (USip sips_alice).
Proof.
  apply (Uri_Equals_trans (USip sips_alice) (USip sips_alice) (USip sips_alice));
    [vm_compute; apply list_elem_of_here..|reflexivity].
Defined.

(** X5. URIs that compare equal render alike: when [a.Equals(b)] can return
    [true], the strings [a.String()] can return are those [b.String()] can
    return. *)
Theorem Uri_Equals_String (a b : Uri) (s : string) :
  true ∈ Uri_Equals a b → s ∈ Uri_String a → s ∈ Uri_String b.
Proof.
  rewrite Uri_Equals_elem_of. intros Heq. symmetry in Heq.
  apply bool_decide_eq_true in Heq. by subst b.
Qed.

Lemma Uri_Equals_String_witness :
  "sip:b.com;x;y"%string ∈
  Uri_String (USip {| IsEncrypted := false; User := None; Password := None;
                      Host := "b.com"; Port := None;
                      UriParams := <["y"%string := None]> {[ "x"%string := None ]};
                      Headers := ∅ |}).
Proof.
  apply (Uri_Equals_String
           (USip {| IsEncrypted := false; User := None; Password := None;
                    Host := "b.com"; Port := None;
                    UriParams := <["x"%string := None]> {[ "y"%string := None ]};
                    Headers := ∅ |})).
  - vm_compute. apply list_elem_of_here.
  - vm_compute. apply list_elem_of_further, list_elem_of_here.
Defined.

(** X6. The converse fails, as [String()] escapes nothing: a URI with user
    [u] and password [p] renders exactly as the URI with user [u:p] and no
    password does, and the two never compare equal. *)
Theorem user_password_ambiguity (e : bool) (u p h : string) (pt : option uint16)
    (up hd : Params) :
  let a := {| IsEncrypted := e; User := Some u; Password := Some p;
              Host := h; Port := pt; UriParams := up; Headers := hd |} in
  let b := {| IsEncrypted := e; User := Some (u +:+ ":" +:+ p); Password := None;
              Host := h; Port := pt; UriParams := up; Headers := hd |} in
  (∀ s, s ∈ SipUri_String a ↔ s ∈ SipUri_String b) ∧
  (∀ r, r ∈ SipUri_Equals a (USip b) ↔ r = false).
Proof.
  intros a b. split.
  - intros s. rewrite !SipUri_String_elem_of.
    assert (SipUri_prefix a = SipUri_prefix b) as ->; [|done].
    unfold SipUri_prefix, a, b. cbn [IsEncrypted User Password Host Port].
    by rewrite ?append_nil_l, ?append_assoc.
  - intros r. rewrite SipUri_Equals_elem_of.
    rewrite (bool_decide_eq_false_2 (a = b)); [done|].
    unfold a, b. discriminate.
Qed.

(** X7. [IsWildcard()] answers what [Equals] answers against the wildcard
    URI: for every URI that can stand in a Contact header, comparing it with
    a wildcard returns the value of its [IsWildcard()]. *)
Theorem IsWildcard_Equals (uri : ContactUri) (r : bool) :
  r ∈ Uri_Equals uri (UWildcard mkWildcardUri) ↔ r = Uri_IsWildcard uri.
Proof.
  rewrite Uri_Equals_elem_of. destruct uri as [u|[]].
  - by rewrite bool_decide_eq_false_2.
  - by rewrite bool_decide_eq_true_2.
Qed.

(** ** Address headers *)

Lemma ToHeader_String_elem_of (to : ToHeader) (s : string) :
  s ∈ ToHeader_String to ↔
  ∃ uri params,
    uri ∈ Uri_String (to_uri to) ∧
    params ∈ ParamsToString (to_params to) ";" ";" ∧
    s = "To: " +:+ quoted_name (to_displayName to) +:+
        "<" +:+ uri +:+ ">" +:+ params.
Proof.
  unfold ToHeader_String, WriteString, quoted_name. split.
  - intros H. apply list_elem_of_bind in H as (u & H & Hu).
    apply list_elem_of_bind in H as (ps & H & Hps).
    apply list_elem_of_ret in H as ->.
    exists u, ps. split; [done|]. split; [done|].
    destruct (to_displayName to);
      rewrite ?append_nil_l, ?append_nil_r, ?append_assoc; reflexivity.
  - intros (u & ps & Hu & Hps & ->).
    apply list_elem_of_bind. exists u. split; [|done].
    apply list_elem_of_bind. exists ps. split; [|done].
    apply list_elem_of_ret.
    destruct (to_displayName to);
      rewrite ?append_nil_l, ?append_nil_r, ?append_assoc; reflexivity.
Qed.

Lemma FromHeader_String_elem_of (from : FromHeader) (s : string) :
  s ∈ FromHeader_String from ↔
  ∃ uri params,
    uri ∈ Uri_String (from_uri from) ∧
    params ∈ ParamsToString (from_params from) ";" ";" ∧
    s = "From: " +:+ quoted_name (from_displayName from) +:+
        "<" +:+ uri +:+ ">" +:+ params.
Proof.
  unfold FromHeader_String, WriteString, quoted_name. split.
  - intros H. apply list_elem_of_bind in H as (u & H & Hu).
    apply list_elem_of_bind in H as (ps & H & Hps).
    apply list_elem_of_ret in H as ->.
    exists u, ps. split; [done|]. split; [done|].
    destruct (from_displayName from);
      rewrite ?append_nil_l, ?append_nil_r, ?append_assoc; reflexivity.
  - intros (u & ps & Hu & Hps & ->).
    apply list_elem_of_bind. exists u. split; [|done].
    apply list_elem_of_bind. exists ps. split; [|done].
    apply list_elem_of_ret.
    destruct (from_displayName from);
      rewrite ?append_nil_l, ?append_nil_r, ?append_assoc; reflexivity.
Qed.

(** X8. The three address headers write the same text after their labels:
    a To header and a From header with the same fields have the same bodies,
    and so has a Contact header whose URI is a SIP URI. *)
Theorem address_headers_agree (displayName : option string) (uri : Uri)
    (params : Params) (body : string) :
  ("To: " +:+ body ∈
     ToHeader_String {| to_displayName := displayName; to_uri := uri;
                        to_params := params |} ↔
   "From: " +:+ body ∈
     FromHeader_String {| from_displayName := displayName; from_uri := uri;
                          from_params := params |}) ∧
  (∀ u, uri = USip u →
     "To: " +:+ body ∈
       ToHeader_String {| to_displayName := displayName; to_uri := uri;
                          to_params := params |} ↔
     "Contact: " +:+ body ∈
       ContactHeader_String {| contact_displayName := displayName;
                               contact_uri := uri; contact_params := params |}).
Proof.
  split.
  - rewrite ToHeader_String_elem_of, FromHeader_String_elem_of. simpl.
    split; intros (us & ps & Hus & Hps & Heq); exists us, ps;
      (split; [done|]); (split; [done|]);
      apply (inj (String.append _)) in Heq; by rewrite Heq.
  - intros u ->.
    rewrite ToHeader_String_elem_of, ContactHeader_String_elem_of. simpl.
    fold (quoted_name displayName). split.
    + intros (us & ps & Hus & Hps & Heq).
      exists ("<" +:+ us +:+ ">"), ps. split; [by exists us|]. split; [done|].
      apply (inj (String.append _)) in Heq. rewrite Heq.
      by rewrite ?append_assoc.
    + intros (x & ps & (us & Hus & ->) & Hps & Heq).
      exists us, ps. split; [done|]. split; [done|].
      apply (inj (String.append _)) in Heq. rewrite Heq.
      by rewrite ?append_assoc.
Qed.

(** X9. The wildcard URI sets the Contact header apart: a To header writes
    every URI between angle brackets, the wildcard too, where the Contact
    header writes the bare [*]. *)
Theorem wildcard_in_address_headers (displayName : option string)
    (params : Params) (s : string) :
  (s ∈ ToHeader_String {| to_displayName := displayName;
                          to_uri := UWildcard mkWildcardUri;
                          to_params := params |} ↔
   ∃ ps, ps ∈ ParamsToString params ";" ";" ∧
         s = "To: " +:+ quoted_name displayName +:+ "<*>" +:+ ps) ∧
  (s ∈ ContactHeader_String {| contact_displayName := displayName;
                               contact_uri := UWildcard mkWildcardUri;
                               contact_params := params |} ↔
   ∃ ps, ps ∈ ParamsToString params ";" ";" ∧
         s = "Contact: " +:+ quoted_name displayName +:+ "*" +:+ ps).
Proof.
  split.
  - rewrite ToHeader_String_elem_of. simpl. split.
    + intros (us & ps & Hus & Hps & ->). apply list_elem_of_ret in Hus as ->.
      by exists ps.
    + intros (ps & Hps & ->). exists "*"%string, ps.
      split; [by apply list_elem_of_ret|done].
  - rewrite ContactHeader_String_elem_of. simpl. fold (quoted_name displayName).
    split.
    + intros (x & ps & -> & Hps & ->). by exists ps.
    + intros (ps & Hps & ->). by exists "*"%string, ps.
Qed.

(** ** The Via header *)

Lemma Join_app (l1 l2 : list string) (sep : string) :
  l1 ≠ [] → l2 ≠ [] →
  Join (l1 ++ l2) sep = Join l1 sep +:+ sep +:+ Join l2 sep.
Proof.
  intros Hl1 Hl2. induction l1 as [|x l1 IH]; [done|].
  destruct l1 as [|y l1].
  - destruct l2 as [|z l2]; [done|]. reflexivity.
  - change (Join ((x :: y :: l1) ++ l2) sep)
      with (x +:+ sep +:+ Join ((y :: l1) ++ l2) sep).
    rewrite IH by done.
    change (Join (x :: y :: l1) sep) with (x +:+ sep +:+ Join (y :: l1) sep).
    by rewrite !append_assoc.
Qed.

Lemma ViaHeader_String_elem_of (via : ViaHeader) (s : string) :
  s ∈ ViaHeader_String via ↔
  ∃ hs, hop_renderings via hs ∧ s = "Via: " +:+ Join hs ", ".
Proof.
  unfold ViaHeader_String. by rewrite ViaHeader_loop_elem_of by lia.
Qed.

Lemma hop_renderings_nonempty (via : list ViaHop) (hs : list string) :
  hop_renderings via hs → via ≠ [] → hs ≠ [].
Proof.
  intros Hhs Hvia ->. apply Forall2_nil_inv_r in Hhs. done.
Qed.

(** X10. Via headers compose: the renderings of two non-empty hop sequences
    put end to end are the renderings of the first, then a comma and a space,
    then the renderings of the second without its label.  A proxy that puts
    its own hop in front of a header changes nothing in the text of the hops
    that follow. *)
Theorem ViaHeader_String_app (via1 via2 : ViaHeader) (s : string) :
  via1 ≠ [] → via2 ≠ [] →
  s ∈ ViaHeader_String (via1 ++ via2) ↔
  ∃ r1 r2,
    "Via: " +:+ r1 ∈ ViaHeader_String via1 ∧
    "Via: " +:+ r2 ∈ ViaHeader_String via2 ∧
    s = "Via: " +:+ r1 +:+ ", " +:+ r2.
Proof.
  intros Hv1 Hv2. rewrite ViaHeader_String_elem_of. split.
  - intros (hs & Hhs & ->).
    apply Forall2_app_inv_l in Hhs as (hs1 & hs2 & Hhs1 & Hhs2 & ->).
    exists (Join hs1 ", "), (Join hs2 ", "). split; [|split].
    + apply ViaHeader_String_elem_of. by exists hs1.
    + apply ViaHeader_String_elem_of. by exists hs2.
    + rewrite Join_app; [done|..]; by eapply hop_renderings_nonempty.
  - intros (r1 & r2 & H1 & H2 & ->).
    apply ViaHeader_String_elem_of in H1 as (hs1 & Hhs1 & Hr1).
    apply ViaHeader_String_elem_of in H2 as (hs2 & Hhs2 & Hr2).
    apply (inj (String.append _)) in Hr1 as ->.
    apply (inj (String.append _)) in Hr2 as ->.
    exists (hs1 ++ hs2). split; [by apply Forall2_app|].
    rewrite Join_app; [done|..]; by eapply hop_renderings_nonempty.
Qed.

Lemma ViaHeader_String_app_witness :
  "Via: SIP/2.0/UDP bigbox.example.com, SIP/2.0/UDP pc33.example.com:5060"%string
  ∈ ViaHeader_String ([hop_bigbox] ++ [hop_pc33]).
Proof.
  apply (ViaHeader_String_app [hop_bigbox] [hop_pc33]); [discriminate..|].
  exists "SIP/2.0/UDP bigbox.example.com"%string,
         "SIP/2.0/UDP pc33.example.com:5060"%string.
  split; [|split; [|reflexivity]]; vm_compute; apply list_elem_of_here.
Defined.

(** X16. At the ends of the loop: a Via header without hops renders as its
    label alone, without failure, and a Via header with one hop renders as
    the label and the hop, with no comma after it. *)
Theorem ViaHeader_String_short :
  ViaHeader_String [] = ["Via: "%string] ∧
  (∀ entry s,
     s ∈ ViaHeader_String [entry] ↔
     ∃ h, h ∈ ViaHop_String entry ∧ s = "Via: " +:+ h).
Proof.
  split; [done|]. intros entry s. rewrite ViaHeader_String_elem_of. split.
  - intros (hs & Hhs & ->).
    apply Forall2_cons_inv_l in Hhs as (h & hs' & Hh & Hhs & ->).
    apply Forall2_nil_inv_l in Hhs as ->. by exists h.
  - intros (h & Hh & ->). exists [h]. split; [|done].
    apply Forall2_cons. split; [done|by apply Forall2_nil].
Qed.

(** ** Generic and token-list headers *)

(** X11. A generic header whose name holds no colon can be read back: the
    text before the first colon of its rendering is the name, and the text
    after it is a space followed by the contents, whatever the contents
    hold. *)
Theorem GenericHeader_String_Cut (header : GenericHeader) :
  ¬ occurs ":" (headerName header) →
  Cut (GenericHeader_String header) ":" =
  (headerName header, Some (" " +:+ contents header)).
Proof.
  intros Hname. unfold GenericHeader_String. rewrite append_assoc.
  change (": " +:+ contents header) with (String ":" (" " +:+ contents header)).
  by apply Cut_append.
Qed.

Lemma GenericHeader_String_Cut_witness :
  Cut (GenericHeader_String {| headerName := "X-Time"; contents := "12:30" |}) ":" =
  ("X-Time"%string, Some " 12:30"%string).
Proof.
  apply (GenericHeader_String_Cut {| headerName := "X-Time"; contents := "12:30" |}).
  simpl. intuition discriminate.
Defined.

Lemma Split_Join_comma (e : string) (es : list string) :
  Forall (λ o, ¬ occurs "," o) (e :: es) →
  Split (Join (e :: es) ", ") "," = e :: map (String " ") es.
Proof.
  revert e. induction es as [|e' es IH]; intros e Hall.
  - apply Forall_cons in Hall as [He _]. unfold Split. simpl.
    by rewrite Split_pieces_no_occurs.
  - apply Forall_cons in Hall as [He Hall].
    change (Join (e :: e' :: es) ", ")
      with (e +:+ String "," (String " " (Join (e' :: es) ", "))).
    unfold Split at 1. rewrite Split_pieces_append by done.
    unfold Split. cbn [Split_pieces]. specialize (IH e' Hall).
    unfold Split in IH. destruct (Split_pieces (Join (e' :: es) ", ") ",")
      as [piece pieces].
    injection IH as -> ->. reflexivity.
Qed.

Lemma untokens_Join (options : list string) :
  options ≠ [] → Forall (λ o, ¬ occurs "," o) options →
  untokens (Join options ", ") = options.
Proof.
  intros Hne Hall. destruct options as [|e es]; [done|].
  unfold untokens. rewrite Split_Join_comma by done. f_equal.
  clear. induction es as [|e' es IH]; [done|]. cbn [map]. by rewrite IH.
Qed.

(** The empty list of option tags and the list of one empty tag render
    alike, so the empty list cannot be read back. *)
Lemma RequireHeader_String_empty :
  RequireHeader_String {| require_options := [] |} =
  RequireHeader_String {| require_options := [EmptyString] |}.
Proof. reflexivity. Qed.

(** X12. The four token-list headers keep their option tags in order and
    can be read back: when the list is not empty and no tag holds a comma,
    the rendering is the label followed by a body, and splitting the body on
    commas and dropping the space after each comma gives back the list. *)
Theorem token_list_round_trip (options : list string) :
  options ≠ [] → Forall (λ o, ¬ occurs "," o) options →
  (∃ body, RequireHeader_String {| require_options := options |} =
             "Require: " +:+ body ∧ untokens body = options) ∧
  (∃ body, SupportedHeader_String {| supported_options := options |} =
             "Supported: " +:+ body ∧ untokens body = options) ∧
  (∃ body, ProxyRequireHeader_String {| proxyRequire_options := options |} =
             "Proxy-Require: " +:+ body ∧ untokens body = options) ∧
  (∃ body, UnsupportedHeader_String {| unsupported_options := options |} =
             "Unsupported: " +:+ body ∧ untokens body = options).
Proof.
  intros Hne Hall.
  repeat split; exists (Join options ", "); (split; [done|]);
    by apply untokens_Join.
Qed.

Lemma token_list_round_trip_witness :
  ∃ body, RequireHeader_String {| require_options := ["100rel"; "timer"]%string |} =
            "Require: " +:+ body ∧
          untokens body = ["100rel"; "timer"]%string.
Proof.
  apply (token_list_round_trip ["100rel"; "timer"]%string); [discriminate|].
  repeat constructor; simpl; intuition discriminate.
Defined.

(** ** Scalar headers *)

Lemma pretty_Z_of_N (n : N) : pretty (Z.of_N n) = pretty n.
Proof. by destruct n. Qed.

Lemma pretty_Z_opp_of_N (n : N) :
  (0 < n)%N → pretty (- Z.of_N n)%Z = "-" +:+ pretty n.
Proof. destruct n; [lia|done]. Qed.

Lemma int_of_uint32_64 (x : uint32) :
  (x < 2 ^ 32)%N → int_of_uint32 64 x = Z.of_N x.
Proof.
  intros Hx. unfold int_of_uint32.
  assert (0 ≤ Z.of_N x < 2 ^ 32)%Z as Hz by lia.
  rewrite Z.mod_small by lia.
  destruct (Z.ltb_spec (Z.of_N x) (2 ^ (64 - 1))) as [_|Hge]; [done|]. lia.
Qed.

Lemma int_of_uint32_32 (x : uint32) :
  (x < 2 ^ 32)%N →
  int_of_uint32 32 x =
  if (x <? 2 ^ 31)%N then Z.of_N x else (- Z.of_N (2 ^ 32 - x))%Z.
Proof.
  intros Hx. unfold int_of_uint32.
  assert (0 ≤ Z.of_N x < 2 ^ 32)%Z as Hz by lia.
  rewrite Z.mod_small by lia.
  destruct (Z.ltb_spec (Z.of_N x) (2 ^ (32 - 1))) as [Hlt|Hge];
    destruct (N.ltb_spec x (2 ^ 31)) as [Hlt'|Hge']; try lia; done.
Qed.

(** X13. [Max-Forwards] and [Content-Length] go through [int] before they
    are printed.  Where [int] has 64 bits every 32-bit value is printed as
    its decimal; where [int] has 32 bits this holds below 2^31 only, and a
    value [x] from 2^31 on is printed as the negative number [x - 2^32]. *)
Theorem scalar_headers_int (x : uint32) :
  (x < 2 ^ 32)%N →
  MaxForwards_String 64 x = "Max-Forwards: " +:+ fmt_d x ∧
  ContentLength_String 64 x = "Content-Length: " +:+ fmt_d x ∧
  ((x < 2 ^ 31)%N →
     MaxForwards_String 32 x = "Max-Forwards: " +:+ fmt_d x ∧
     ContentLength_String 32 x = "Content-Length: " +:+ fmt_d x) ∧
  ((2 ^ 31 ≤ x)%N →
     MaxForwards_String 32 x = "Max-Forwards: " +:+ "-" +:+ fmt_d (2 ^ 32 - x) ∧
     ContentLength_String 32 x = "Content-Length: " +:+ "-" +:+ fmt_d (2 ^ 32 - x)).
Proof.
  intros Hx. unfold MaxForwards_String, ContentLength_String, fmt_d_int, fmt_d.
  rewrite int_of_uint32_64, int_of_uint32_32, pretty_Z_of_N by done.
  split; [done|]. split; [done|]. split.
  - intros Hlt. apply N.ltb_lt in Hlt. rewrite Hlt. by rewrite pretty_Z_of_N.
  - intros Hge. apply N.ltb_ge in Hge. rewrite Hge.
    by rewrite pretty_Z_opp_of_N by lia.
Qed.

Lemma scalar_headers_int_witness :
  MaxForwards_String 32 3000000000%N = "Max-Forwards: -1294967296"%string ∧
  MaxForwards_String 64 3000000000%N = "Max-Forwards: 3000000000"%string.
Proof.
  destruct (scalar_headers_int 3000000000%N eq_refl) as (H64 & _ & _ & H32).
  destruct (H32 ltac:(discriminate)) as [H32' _].
  split; [exact H32'|exact H64].
Defined.

Lemma int_of_uint32_inj (intSize : Z) (x y : uint32) :
  intSize = 32%Z ∨ intSize = 64%Z →
  (x < 2 ^ 32)%N → (y < 2 ^ 32)%N →
  int_of_uint32 intSize x = int_of_uint32 intSize y → x = y.
Proof.
  intros [-> | ->] Hx Hy.
  - rewrite !int_of_uint32_32 by done.
    destruct (N.ltb_spec x (2 ^ 31)), (N.ltb_spec y (2 ^ 31)); lia.
  - rewrite !int_of_uint32_64 by done. lia.
Qed.

(** X14. Whatever the size of [int], the two headers tell 32-bit values
    apart: two values with the same rendering are the same value. *)
Theorem scalar_headers_inj (intSize : Z) (x y : uint32) :
  intSize = 32%Z ∨ intSize = 64%Z →
  (x < 2 ^ 32)%N → (y < 2 ^ 32)%N →
  (MaxForwards_String intSize x = MaxForwards_String intSize y → x = y) ∧
  (ContentLength_String intSize x = ContentLength_String intSize y → x = y).
Proof.
  intros Hsize Hx Hy. unfold MaxForwards_String, ContentLength_String, fmt_d_int.
  split; intros Heq; apply (inj (String.append _)) in Heq;
    apply (inj pretty) in Heq; by eapply int_of_uint32_inj.
Qed.

Lemma scalar_headers_inj_witness :
  (MaxForwards_String 32 70%N = MaxForwards_String 32 70%N → 70%N = 70%N) ∧
  (ContentLength_String 32 70%N = ContentLength_String 32 70%N → 70%N = 70%N).
Proof.
  apply (scalar_headers_inj 32 70%N 70%N); [by left|reflexivity..].
Defined.

Lemma pretty_N_char_not_space (x : N) : pretty_N_char x ≠ " "%char.
Proof. unfold pretty_N_char. by repeat case_match. Qed.

Lemma pretty_N_go_no_space (x : N) (s : string) :
  ¬ occurs " " s → ¬ occurs " " (pretty_N_go x s).
Proof.
  revert s. induction (N.lt_wf_0 x) as [x _ IH]; intros s Hs.
  assert (x = 0 ∨ 0 < x)%N as [->|Hpos] by lia.
  - by rewrite pretty_N_go_0.
  - rewrite pretty_N_go_step by done. apply IH.
    + by apply N.div_lt.
    + simpl. intros [Hc|Hin]; [|done]. by apply pretty_N_char_not_space in Hc.
Qed.

Lemma fmt_d_no_space (n : N) : ¬ occurs " " (fmt_d n).
Proof.
  unfold fmt_d, pretty, pretty_N. case_decide.
  - simpl. intuition discriminate.
  - apply pretty_N_go_no_space. simpl. tauto.
Qed.

(** X15. A CSeq header can be read back: after the label, the text before
    the first space is the decimal of the sequence number and the text after
    it is the method, whatever the method holds.  So two CSeq values with the
    same rendering are the same value. *)
Theorem CSeq_String_round_trip :
  (∀ cseq, ∃ body,
     CSeq_String cseq = "CSeq: " +:+ body ∧
     Cut body " " = (fmt_d (SeqNo cseq), Some (MethodName cseq))) ∧
  (∀ c1 c2, CSeq_String c1 = CSeq_String c2 → c1 = c2).
Proof.
  assert (∀ cseq, Cut (fmt_d (SeqNo cseq) +:+ " " +:+ MethodName cseq) " " =
                  (fmt_d (SeqNo cseq), Some (MethodName cseq))) as Hcut.
  { intros cseq. apply (Cut_append _ (MethodName cseq)), fmt_d_no_space. }
  split.
  - intros cseq. eexists. split; [reflexivity|apply Hcut].
  - intros [n1 m1] [n2 m2] Heq. unfold CSeq_String in Heq.
    apply (inj (String.append _)) in Heq.
    apply (f_equal (λ body, Cut body " ")) in Heq.
    rewrite (Hcut {| SeqNo := n1; MethodName := m1 |}),
      (Hcut {| SeqNo := n2; MethodName := m2 |}) in Heq.
    simpl in Heq. injection Heq as Hn ->.
    apply (inj pretty) in Hn as ->. done.
Qed.
